(** * The [no-restricted-properties] rule

    A shallow embedding of [lib/rules/no-restricted-properties.js]: the
    three lookup tables that [create] fills from the configured entries,
    the matching procedure [checkPropertyAccess], the visitor callbacks the
    rule registers, and the properties of the rule's specification stated
    over them. *)

From stdpp Require Import gmap strings list fin_maps.

#[local] Set Warnings "-register-all".
#[local] Open Scope string_scope.
#[local] Open Scope list_scope.

(** ** JavaScript values that occur as names and keys

    Object and property names are strings; [option.object] and
    [option.property] may be [undefined]; a property name that is not
    statically known is [null]. The keys of a JS [Map] are compared with
    SameValueZero, which on these three kinds of values is plain equality. *)

Inductive jsval : Type :=
  | JUndefined
  | JNull
  | JString (s : string).

#[global] Instance jsval_eq_dec : EqDecision jsval.
Proof. solve_decision. Defined.

#[global] Instance jsval_countable : Countable jsval.
Proof.
  refine (inj_countable'
    (λ v, match v with
          | JUndefined => inl false
          | JNull => inl true
          | JString s => inr s
          end)
    (λ c, match c with
          | inl false => JUndefined
          | inl true => JNull
          | inr s => JString s
          end) _).
  by intros [].
Defined.

(** An optional string field of a configuration entry, read as a JS value. *)
Definition to_js (o : option string) : jsval :=
  match o with
  | Some s => JString s
  | None => JUndefined
  end.

(** ** Syntax trees (the ESTree shapes the rule looks at) *)

Inductive node : Type :=
  | Identifier (name : string)
  | Literal (value : string)
  | ThisExpression
  | MemberExpression (object property : node) (computed : bool)
  | CallExpression (callee : node) (arguments : list node)
  | ObjectPattern (properties : list node)
  | Property (key value : node) (computed shorthand : bool)
  | RestElement (argument : node)
  | AssignmentExpression (left right : node)
  | AssignmentPattern (left right : node)
  | VariableDeclarator (id : node) (init : option node)
  | VariableDeclaration (declarations : list node)
  | ArrowFunctionExpression (params : list node) (body : node)
  | ExpressionStatement (expression : node)
  | Program (body : list node).

(** [n.name]: the identifier's name, [undefined] on every other node. *)
Definition node_name (n : node) : jsval :=
  match n with
  | Identifier name => JString name
  | _ => JUndefined
  end.

(** Modelled from the spec: [astUtils] is not part of the sources. The
    name of a key: a string literal names itself whether or not the access
    is computed, an identifier names itself only when the access is not
    computed, and every other key is dynamic ([null]). *)
Definition static_key_name (key : node) (computed : bool) : jsval :=
  match key with
  | Literal value => JString value
  | Identifier name => if computed then JNull else JString name
  | _ => JNull
  end.

(** Modelled from the spec: [astUtils.getStaticPropertyName], "the
    statically known property name of this access or pattern property, or
    none if dynamic". *)
Definition getStaticPropertyName (n : node) : jsval :=
  match n with
  | MemberExpression _ property computed => static_key_name property computed
  | Property key _ computed _ => static_key_name key computed
  | _ => JNull
  end.

(** Modelled from the spec: [astUtils.getAllProperties], "the ordered
    sequence of every property name bound in the object pattern, including
    renamed bindings and shorthand; rest elements contribute no property
    name". A property with a dynamic key contributes the unknown name. *)
Definition getAllProperties (properties : list node) : list jsval :=
  flat_map (λ p, match p with
                 | Property _ _ _ _ => [getStaticPropertyName p]
                 | _ => []
                 end) properties.

(** ** Configuration entries and the three lookup tables *)

Record RestrictedCall : Type := {
  object : option string;
  property : option string;
  message : option string
}.

(** The value stored in a table: the object [{ message: option.message }]. *)
Record Restricted : Type := { restricted_message : option string }.

Record Model : Type := {
  restrictedProperties : gmap jsval (gmap jsval Restricted);
  globallyRestrictedObjects : gmap jsval Restricted;
  globallyRestrictedProperties : gmap jsval Restricted
}.

Definition empty_model : Model :=
  {| restrictedProperties := ∅;
     globallyRestrictedObjects := ∅;
     globallyRestrictedProperties := ∅ |}.

(** The callback of [restrictedCalls.forEach]. The result is [None] where
    the JS code would throw: calling [.set] on the [undefined] that
    [restrictedProperties.get(objectName)] returns for a missing key. *)
Definition addRestrictedCall (st : Model) (opt : RestrictedCall) : option Model :=
  let objectName := to_js (object opt) in
  let propertyName := to_js (property opt) in
  let entry := {| restricted_message := message opt |} in
  if decide (objectName = JUndefined) then
    Some {| restrictedProperties := restrictedProperties st;
            globallyRestrictedObjects := globallyRestrictedObjects st;
            globallyRestrictedProperties :=
              <[propertyName := entry]> (globallyRestrictedProperties st) |}
  else if decide (propertyName = JUndefined) then
    Some {| restrictedProperties := restrictedProperties st;
            globallyRestrictedObjects :=
              <[objectName := entry]> (globallyRestrictedObjects st);
            globallyRestrictedProperties := globallyRestrictedProperties st |}
  else
    let table :=
      if decide (is_Some (restrictedProperties st !! objectName))
      then restrictedProperties st
      else <[objectName := ∅]> (restrictedProperties st) in
    match table !! objectName with
    | None => None
    | Some inner =>
        Some {| restrictedProperties :=
                  <[objectName := <[propertyName := entry]> inner]> table;
                globallyRestrictedObjects := globallyRestrictedObjects st;
                globallyRestrictedProperties := globallyRestrictedProperties st |}
    end.

(** [Array.prototype.forEach] with a callback that updates a state and may
    throw. *)
Fixpoint forEach {S A : Type} (f : S → A → option S) (l : list A) (st : S)
  : option S :=
  match l with
  | [] => Some st
  | x :: l' =>
      match f st x with
      | Some st' => forEach f l' st'
      | None => None
      end
  end.

(** The table-building loop of [create] (the spec's Build). *)
Definition Build (restrictedCalls : list RestrictedCall) : option Model :=
  forEach addRestrictedCall restrictedCalls empty_model.

(** ** Matching *)

(** An element of the array [fun] returns: [{ name: x, ...mapName.get(x) }]. *)
Record Matched : Type := { name : jsval; props_message : option string }.

(** The source's [fun(mapName, propertyNames)]; [undefined] is [None]. *)
Definition fun_ (mapName : gmap jsval Restricted) (propertyNames : list jsval)
  : option (list Matched) :=
  let arr :=
    foldl (λ arr x,
             match mapName !! x with
             | Some r => arr ++ [{| name := x; props_message := restricted_message r |}]
             | None => arr
             end) [] propertyNames in
  if decide (length arr = 0) then None else Some arr.

Inductive MessageId : Type := restrictedObjectProperty | restrictedProperty.

(** The argument of [context.report]; [data_objectName] is [None] where the
    [data] object has no [objectName] field. *)
Record Report : Type := {
  report_node : node;
  messageId : MessageId;
  data_objectName : option jsval;
  data_propertyName : jsval;
  data_message : string
}.

(** [m ? ` ${m}` : ""]: the empty string is falsy as well. *)
Definition message_suffix (m : option string) : string :=
  match m with
  | Some EmptyString => ""
  | Some s => " " +:+ s
  | None => ""
  end.

(** [propertyName[0]]. *)
Definition first_name (propertyName : list jsval) : jsval :=
  default JUndefined (propertyName !! 0).

(** [checkPropertyAccess]; the reports are returned in the order they are
    made. The third argument is [None] for [null] and an array otherwise. *)
Definition checkPropertyAccess (m : Model) (n : node) (objectName : jsval)
    (propertyName : option (list jsval)) : list Report :=
  match propertyName with
  | None => []
  | Some propertyName =>
      let matchedObject := restrictedProperties m !! objectName in
      let matchedObjectProperty :=
        match matchedObject with
        | Some matchedObject => fun_ matchedObject propertyName
        | None => None
        end in
      let globalMatchedObject := globallyRestrictedObjects m !! objectName in
      let globalMatchedProperty := fun_ (globallyRestrictedProperties m) propertyName in
      match matchedObjectProperty, globalMatchedProperty, globalMatchedObject with
      | Some matched, _, _ =>
          map (λ props,
                 {| report_node := n;
                    messageId := restrictedObjectProperty;
                    data_objectName := Some objectName;
                    data_propertyName := name props;
                    data_message := message_suffix (props_message props) |})
              matched
      | None, Some matched, _ =>
          map (λ props,
                 {| report_node := n;
                    messageId := restrictedProperty;
                    data_objectName := None;
                    data_propertyName := name props;
                    data_message := message_suffix (props_message props) |})
              matched
      | None, None, Some globalMatchedObject =>
          [{| report_node := n;
              messageId := restrictedObjectProperty;
              data_objectName := Some objectName;
              data_propertyName := first_name propertyName;
              data_message := message_suffix (restricted_message globalMatchedObject) |}]
      | None, None, None => []
      end
  end.

(** [checkDestructuringAssignment], for the two node kinds it is registered
    on. *)
Definition checkDestructuringAssignment (m : Model) (n : node) : list Report :=
  match n with
  | AssignmentExpression lhs (Identifier objectName)
  | AssignmentPattern lhs (Identifier objectName) =>
      match lhs with
      | ObjectPattern properties =>
          checkPropertyAccess m lhs (JString objectName)
            (Some (getAllProperties properties))
      | _ => []
      end
  | _ => []
  end.

Definition visitMemberExpression (m : Model) (n : node) : list Report :=
  match n with
  | MemberExpression object _ _ =>
      checkPropertyAccess m n (node_name object) (Some [getStaticPropertyName n])
  | _ => []
  end.

Definition visitVariableDeclarator (m : Model) (n : node) : list Report :=
  match n with
  | VariableDeclarator id (Some (Identifier objectName)) =>
      match id with
      | ObjectPattern properties =>
          checkPropertyAccess m id (JString objectName)
            (Some (getAllProperties properties))
      | _ => []
      end
  | _ => []
  end.

(** The arrow-function callback only computes property lists and drops
    them: it reports nothing. *)
Definition visitArrowFunctionExpression (n : node) : list Report := [].

(** ** The object [create] returns *)

Record RuleListener : Type := {
  onMemberExpression : option (node → list Report);
  onVariableDeclarator : option (node → list Report);
  onAssignmentExpression : option (node → list Report);
  onAssignmentPattern : option (node → list Report);
  onArrowFunctionExpression : option (node → list Report)
}.

(** The object literal [{}]. *)
Definition no_listeners : RuleListener :=
  {| onMemberExpression := None;
     onVariableDeclarator := None;
     onAssignmentExpression := None;
     onAssignmentPattern := None;
     onArrowFunctionExpression := None |}.

Definition listeners (m : Model) : RuleListener :=
  {| onMemberExpression := Some (visitMemberExpression m);
     onVariableDeclarator := Some (visitVariableDeclarator m);
     onAssignmentExpression := Some (checkDestructuringAssignment m);
     onAssignmentPattern := Some (checkDestructuringAssignment m);
     onArrowFunctionExpression := Some visitArrowFunctionExpression |}.

Definition create (options : list RestrictedCall) : option RuleListener :=
  if decide (length options = 0) then Some no_listeners
  else
    match Build options with
    | Some m => Some (listeners m)
    | None => None
    end.

(** ** The host's traversal *)

Definition call (h : option (node → list Report)) (n : node) : list Report :=
  match h with
  | Some f => f n
  | None => []
  end.

(** Modelled from the spec: the host's dispatch, "callback registration
    keyed by syntactic node kind": a node is handed to the callback
    registered under its kind, if there is one. *)
Definition dispatch (l : RuleListener) (n : node) : list Report :=
  match n with
  | MemberExpression _ _ _ => call (onMemberExpression l) n
  | VariableDeclarator _ _ => call (onVariableDeclarator l) n
  | AssignmentExpression _ _ => call (onAssignmentExpression l) n
  | AssignmentPattern _ _ => call (onAssignmentPattern l) n
  | ArrowFunctionExpression _ _ => call (onArrowFunctionExpression l) n
  | _ => []
  end.

(** Modelled from the spec: the host's traversal visits every node of the
    tree, a node before its children and the children in source order. *)
Fixpoint traverse (l : RuleListener) (n : node) {struct n} : list Report :=
  dispatch l n ++
  match n with
  | Identifier _ | Literal _ | ThisExpression => []
  | MemberExpression object property _ => traverse l object ++ traverse l property
  | CallExpression callee arguments =>
      traverse l callee ++ flat_map (traverse l) arguments
  | ObjectPattern properties => flat_map (traverse l) properties
  | Property key value _ _ => traverse l key ++ traverse l value
  | RestElement argument => traverse l argument
  | AssignmentExpression lhs rhs => traverse l lhs ++ traverse l rhs
  | AssignmentPattern lhs rhs => traverse l lhs ++ traverse l rhs
  | VariableDeclarator id init =>
      traverse l id ++ match init with Some e => traverse l e | None => [] end
  | VariableDeclaration declarations => flat_map (traverse l) declarations
  | ArrowFunctionExpression params body =>
      flat_map (traverse l) params ++ traverse l body
  | ExpressionStatement expression => traverse l expression
  | Program body => flat_map (traverse l) body
  end.

(** Running the rule with the given options over a program. *)
Definition lint (options : list RestrictedCall) (program : node)
  : option (list Report) :=
  match create options with
  | Some l => Some (traverse l program)
  | None => None
  end.

(** Visiting one node with the given options. *)
Definition visit (options : list RestrictedCall) (n : node)
  : option (list Report) :=
  match create options with
  | Some l => Some (dispatch l n)
  | None => None
  end.

(** ** The revision with [getMatchingProperties] and an [ObjectPattern] callback

    The second text of the rule in the same file. Its tables are built by
    the same loop; it differs in the name and the "no match" value of the
    matching helper and in the callbacks [create] returns. *)

Module Revision2.

(** [getMatchingProperties(restricted, propertyNames)]; [false] is [None]. *)
Definition getMatchingProperties (restricted : gmap jsval Restricted)
    (propertyNames : list jsval) : option (list Matched) :=
  let matchedProperties :=
    foldl (λ matchedProperties property,
             if decide (¬ is_Some (restricted !! property)) then matchedProperties
             else
               matchedProperties ++
               [{| name := property;
                   props_message :=
                     match restricted !! property with
                     | Some r => restricted_message r
                     | None => None
                     end |}]) [] propertyNames in
  if decide (length matchedProperties = 0) then None else Some matchedProperties.

Definition checkPropertyAccess (m : Model) (n : node) (objectName : jsval)
    (propertyName : option (list jsval)) : list Report :=
  match propertyName with
  | None => []
  | Some propertyName =>
      let matchedObject := restrictedProperties m !! objectName in
      let matchedObjectProperty :=
        match matchedObject with
        | Some matchedObject => getMatchingProperties matchedObject propertyName
        | None => None
        end in
      let globalMatchedObject := globallyRestrictedObjects m !! objectName in
      let globalMatchedProperty :=
        getMatchingProperties (globallyRestrictedProperties m) propertyName in
      match matchedObjectProperty with
      | Some matched =>
          map (λ props,
                 {| report_node := n;
                    messageId := restrictedObjectProperty;
                    data_objectName := Some objectName;
                    data_propertyName := name props;
                    data_message := message_suffix (props_message props) |})
              matched
      | None =>
          match globalMatchedProperty with
          | Some matched =>
              map (λ props,
                     {| report_node := n;
                        messageId := restrictedProperty;
                        data_objectName := None;
                        data_propertyName := name props;
                        data_message := message_suffix (props_message props) |})
                  matched
          | None =>
              match globalMatchedObject with
              | Some globalMatchedObject =>
                  [{| report_node := n;
                      messageId := restrictedObjectProperty;
                      data_objectName := Some objectName;
                      data_propertyName := first_name propertyName;
                      data_message :=
                        message_suffix (restricted_message globalMatchedObject) |}]
              | None => []
              end
          end
      end
  end.

Definition visitMemberExpression (m : Model) (n : node) : list Report :=
  match n with
  | MemberExpression object _ _ =>
      checkPropertyAccess m n (node_name object) (Some [getStaticPropertyName n])
  | _ => []
  end.

(** The [objectName] the [ObjectPattern] callback computes from
    [node.parent]; [None] where reading [.name] of the [null] initializer
    of a declarator throws. *)
Definition pattern_objectName (parent : node) : option jsval :=
  match parent with
  | VariableDeclarator _ init =>
      match init with
      | Some e => Some (node_name e)
      | None => None
      end
  | AssignmentExpression _ (Identifier objectName)
  | AssignmentPattern _ (Identifier objectName) => Some (JString objectName)
  | _ => Some (JString "")
  end.

(** The [ObjectPattern] callback, given [node.parent]: it computes the
    object name and stops there. *)
Definition visitObjectPattern (parent n : node) : option (list Report) :=
  match pattern_objectName parent with
  | Some _ => Some []
  | None => None
  end.

Record RuleListener : Type := {
  onMemberExpression : option (node → list Report);
  onObjectPattern : option (node → node → option (list Report))
}.

Definition create (options : list RestrictedCall) : option RuleListener :=
  if decide (length options = 0) then
    Some {| onMemberExpression := None; onObjectPattern := None |}
  else
    match Build options with
    | Some m =>
        Some {| onMemberExpression := Some (visitMemberExpression m);
                onObjectPattern := Some visitObjectPattern |}
    | None => None
    end.

(** The reports for one node below its parent, [None] where a callback
    throws. *)
Definition visit (options : list RestrictedCall) (parent n : node)
  : option (list Report) :=
  match create options with
  | Some l =>
      match n with
      | MemberExpression _ _ _ =>
          Some (match onMemberExpression l with Some f => f n | None => [] end)
      | ObjectPattern _ =>
          match onObjectPattern l with
          | Some f => f parent n
          | None => Some []
          end
      | _ => Some []
      end
  | None => None
  end.

End Revision2.

(** ** The revision that checks one property name per call

    The text of the rule in [src/unnamed/part_000]. Its tables are built by
    the same loop. [checkPropertyAccess] takes a single name or an array of
    names; the callbacks pass single names. *)

Module PerProperty.

(** The third argument of [checkPropertyAccess]. *)
Inductive PropertyName : Type :=
  | Scalar (v : jsval)
  | Array (names : list jsval).

(** An element [{ ...restricted.get(x), x }] of the arrays built for an
    array of names. *)
Record MatchedX : Type := { prop_x : jsval; prop_message : option string }.

(** What [matchedObjectProperty] and [globalMatchedProperty] hold when they
    are not [undefined]: a stored entry or an array of matches. *)
Inductive Found : Type :=
  | Entry (r : Restricted)
  | Matches (l : list MatchedX).

(** The [forEach] loops that fill an array from an array of names. *)
Definition collect (restricted : gmap jsval Restricted) (names : list jsval)
  : list MatchedX :=
  foldl (λ arr x,
           match restricted !! x with
           | None => arr
           | Some r => arr ++ [{| prop_x := x; prop_message := restricted_message r |}]
           end) [] names.

(** [checkPropertyAccess]; [None] where the JS code throws, iterating with
    [for ... of] over a stored entry, which is not iterable. *)
Definition checkPropertyAccess (m : Model) (n : node) (objectName : jsval)
    (propertyName : PropertyName) : option (list Report) :=
  match propertyName with
  | Scalar JNull => Some []
  | _ =>
    let matchedObject := restrictedProperties m !! objectName in
    let matchedObjectProperty : option Found :=
      match matchedObject with
      | Some matchedObject =>
          match propertyName with
          | Array names => Some (Matches (collect matchedObject names))
          | Scalar v => Entry <$> matchedObject !! v
          end
      | None => Entry <$> globallyRestrictedObjects m !! objectName
      end in
    let globalMatchedProperty : option Found :=
      match propertyName with
      | Array names => Some (Matches (collect (globallyRestrictedProperties m) names))
      | Scalar v => Entry <$> globallyRestrictedProperties m !! v
      end in
    match matchedObjectProperty with
    | Some found =>
        match propertyName with
        | Array _ =>
            match found with
            | Matches l =>
                Some (map (λ prop,
                             {| report_node := n;
                                messageId := restrictedObjectProperty;
                                data_objectName := Some objectName;
                                data_propertyName := prop_x prop;
                                data_message := message_suffix (prop_message prop) |})
                          l)
            | Entry _ => None
            end
        | Scalar v =>
            Some [{| report_node := n;
                     messageId := restrictedObjectProperty;
                     data_objectName := Some objectName;
                     data_propertyName := v;
                     data_message :=
                       message_suffix
                         match found with
                         | Entry r => restricted_message r
                         | Matches _ => None
                         end |}]
        end
    | None =>
        match globalMatchedProperty with
        | Some found =>
            match propertyName with
            | Array _ =>
                match found with
                | Matches l =>
                    Some (map (λ prop,
                                 {| report_node := n;
                                    messageId := restrictedProperty;
                                    data_objectName := None;
                                    data_propertyName := prop_x prop;
                                    data_message := message_suffix (prop_message prop) |})
                              l)
                | Entry _ => None
                end
            | Scalar v =>
                Some [{| report_node := n;
                         messageId := restrictedProperty;
                         data_objectName := None;
                         data_propertyName := v;
                         data_message :=
                           message_suffix
                             match found with
                             | Entry r => restricted_message r
                             | Matches _ => None
                             end |}]
            end
        | None => Some []
        end
    end
  end.

(** [properties.forEach(property => checkPropertyAccess(...))]: the calls
    in order, stopping at the first that throws. *)
Fixpoint forEach_property (m : Model) (n : node) (objectName : jsval)
    (properties : list node) : option (list Report) :=
  match properties with
  | [] => Some []
  | property :: rest =>
      match checkPropertyAccess m n objectName (Scalar (getStaticPropertyName property)) with
      | Some reports =>
          match forEach_property m n objectName rest with
          | Some more => Some (reports ++ more)
          | None => None
          end
      | None => None
      end
  end.

Definition checkDestructuringAssignment (m : Model) (n : node)
  : option (list Report) :=
  match n with
  | AssignmentExpression lhs (Identifier objectName)
  | AssignmentPattern lhs (Identifier objectName) =>
      match lhs with
      | ObjectPattern properties =>
          forEach_property m lhs (JString objectName) properties
      | _ => Some []
      end
  | _ => Some []
  end.

Definition visitMemberExpression (m : Model) (n : node) : option (list Report) :=
  match n with
  | MemberExpression object _ _ =>
      checkPropertyAccess m n (node_name object) (Scalar (getStaticPropertyName n))
  | _ => Some []
  end.

End PerProperty.

(** ** Definitions used to state the properties *)

(** The matched names with their entries, by one pass over the names. *)
Definition matches (mapName : gmap jsval Restricted) (propertyNames : list jsval)
  : list Matched :=
  omap (λ x, (λ r, {| name := x; props_message := restricted_message r |})
               <$> mapName !! x) propertyNames.

(** One configured entry, as a table update that cannot fail. *)
Definition add_call (st : Model) (opt : RestrictedCall) : Model :=
  let entry := {| restricted_message := message opt |} in
  match object opt, property opt with
  | None, p =>
      {| restrictedProperties := restrictedProperties st;
         globallyRestrictedObjects := globallyRestrictedObjects st;
         globallyRestrictedProperties :=
           <[to_js p := entry]> (globallyRestrictedProperties st) |}
  | Some o, None =>
      {| restrictedProperties := restrictedProperties st;
         globallyRestrictedObjects :=
           <[JString o := entry]> (globallyRestrictedObjects st);
         globallyRestrictedProperties := globallyRestrictedProperties st |}
  | Some o, Some p =>
      {| restrictedProperties :=
           <[JString o := <[JString p := entry]>
                            (default ∅ (restrictedProperties st !! JString o))]>
             (restrictedProperties st);
         globallyRestrictedObjects := globallyRestrictedObjects st;
         globallyRestrictedProperties := globallyRestrictedProperties st |}
  end.

(** Every stored restriction was put there by a configured entry of the
    matching shape; in particular the object tables are keyed by strings
    and no table has the key [null]. *)
Record provenance (entries : list RestrictedCall) (m : Model) : Prop := {
  prov_scoped : ∀ k inner x r,
    restrictedProperties m !! k = Some inner → inner !! x = Some r →
    ∃ e o p, e ∈ entries ∧ object e = Some o ∧ property e = Some p ∧
             k = JString o ∧ x = JString p ∧
             r = {| restricted_message := message e |};
  prov_objects : ∀ k r,
    globallyRestrictedObjects m !! k = Some r →
    ∃ e o, e ∈ entries ∧ object e = Some o ∧ property e = None ∧
           k = JString o ∧ r = {| restricted_message := message e |};
  prov_properties : ∀ x r,
    globallyRestrictedProperties m !! x = Some r →
    ∃ e, e ∈ entries ∧ object e = None ∧ x = to_js (property e) ∧
         r = {| restricted_message := message e |}
}.

(** [stored m o p] is what the tables hold for an entry whose [object] is
    [o] and whose [property] is [p]. *)
Definition stored (m : Model) (o p : option string) : option Restricted :=
  match o, p with
  | None, p => globallyRestrictedProperties m !! to_js p
  | Some o, None => globallyRestrictedObjects m !! JString o
  | Some o, Some p =>
      match restrictedProperties m !! JString o with
      | Some inner => inner !! JString p
      | None => None
      end
  end.

(** The names of the site that have a restriction scoped to its object. *)
Definition scoped_matches (m : Model) (objectName : jsval) (names : list jsval)
  : list Matched :=
  match restrictedProperties m !! objectName with
  | Some inner => matches inner names
  | None => []
  end.

Definition report_scoped (n : node) (objectName : jsval) (props : Matched) : Report :=
  {| report_node := n;
     messageId := restrictedObjectProperty;
     data_objectName := Some objectName;
     data_propertyName := name props;
     data_message := message_suffix (props_message props) |}.

Definition report_property (n : node) (props : Matched) : Report :=
  {| report_node := n;
     messageId := restrictedProperty;
     data_objectName := None;
     data_propertyName := name props;
     data_message := message_suffix (props_message props) |}.

Definition report_object (n : node) (objectName : jsval) (names : list jsval)
    (found : Restricted) : Report :=
  {| report_node := n;
     messageId := restrictedObjectProperty;
     data_objectName := Some objectName;
     data_propertyName := first_name names;
     data_message := message_suffix (restricted_message found) |}.

(** The pattern [{ a }]. *)
Definition pattern_a : node :=
  ObjectPattern [Property (Identifier "a") (Identifier "a") false true].

(** [const { a } = foo;] *)
Definition declaration_form : node :=
  Program [VariableDeclaration
             [VariableDeclarator pattern_a (Some (Identifier "foo"))]].

(** [({ a } = foo);] *)
Definition assignment_form : node :=
  Program [ExpressionStatement
             (AssignmentExpression pattern_a (Identifier "foo"))].

(** [foo.a;] *)
Definition member_form : node :=
  Program [ExpressionStatement
             (MemberExpression (Identifier "foo") (Identifier "a") false)].

(** Case analysis on membership in an explicit list. *)
Ltac list_cases :=
  repeat match goal with
         | H : _ ∈ _ :: _ |- _ => apply elem_of_cons in H as [H|H]
         | H : _ ∈ [] |- _ => by apply elem_of_nil in H
         end;
  simplify_eq/=.

(** Induction over syntax trees, with the children in lists and options
    covered. *)
Section node_induction.
Variable P : node → Prop.
Hypothesis HIdentifier : ∀ name, P (Identifier name).
Hypothesis HLiteral : ∀ value, P (Literal value).
Hypothesis HThisExpression : P ThisExpression.
Hypothesis HMemberExpression : ∀ object property computed,
  P object → P property → P (MemberExpression object property computed).
Hypothesis HCallExpression : ∀ callee arguments,
  P callee → Forall P arguments → P (CallExpression callee arguments).
Hypothesis HObjectPattern : ∀ properties,
  Forall P properties → P (ObjectPattern properties).
Hypothesis HProperty : ∀ key value computed shorthand,
  P key → P value → P (Property key value computed shorthand).
Hypothesis HRestElement : ∀ argument, P argument → P (RestElement argument).
Hypothesis HAssignmentExpression : ∀ lhs rhs,
  P lhs → P rhs → P (AssignmentExpression lhs rhs).
Hypothesis HAssignmentPattern : ∀ lhs rhs,
  P lhs → P rhs → P (AssignmentPattern lhs rhs).
Hypothesis HVariableDeclarator : ∀ id init,
  P id → (∀ e, init = Some e → P e) → P (VariableDeclarator id init).
Hypothesis HVariableDeclaration : ∀ declarations,
  Forall P declarations → P (VariableDeclaration declarations).
Hypothesis HArrowFunctionExpression : ∀ params body,
  Forall P params → P body → P (ArrowFunctionExpression params body).
Hypothesis HExpressionStatement : ∀ expression,
  P expression → P (ExpressionStatement expression).
Hypothesis HProgram : ∀ body, Forall P body → P (Program body).

Fixpoint node_tree_ind (n : node) : P n :=
  let all := fix all (ns : list node) : Forall P ns :=
    match ns with
    | [] => Forall_nil_2 P
    | n' :: ns' => Forall_cons_2 P n' ns' (node_tree_ind n') (all ns')
    end in
  match n with
  | Identifier name => HIdentifier name
  | Literal value => HLiteral value
  | ThisExpression => HThisExpression
  | MemberExpression object property computed =>
      HMemberExpression object property computed
        (node_tree_ind object) (node_tree_ind property)
  | CallExpression callee arguments =>
      HCallExpression callee arguments (node_tree_ind callee) (all arguments)
  | ObjectPattern properties => HObjectPattern properties (all properties)
  | Property key value computed shorthand =>
      HProperty key value computed shorthand
        (node_tree_ind key) (node_tree_ind value)
  | RestElement argument => HRestElement argument (node_tree_ind argument)
  | AssignmentExpression lhs rhs =>
      HAssignmentExpression lhs rhs (node_tree_ind lhs) (node_tree_ind rhs)
  | AssignmentPattern lhs rhs =>
      HAssignmentPattern lhs rhs (node_tree_ind lhs) (node_tree_ind rhs)
  | VariableDeclarator id init =>
      HVariableDeclarator id init (node_tree_ind id)
        (match init return ∀ e, init = Some e → P e with
         | Some e' => λ e Heq,
             eq_ind e' P (node_tree_ind e') e (Some_inj e' e Heq)
         | None => λ e Heq, False_ind (P e) (None_ne_Some e Heq)
         end)
  | VariableDeclaration declarations =>
      HVariableDeclaration declarations (all declarations)
  | ArrowFunctionExpression params body =>
      HArrowFunctionExpression params body (all params) (node_tree_ind body)
  | ExpressionStatement expression =>
      HExpressionStatement expression (node_tree_ind expression)
  | Program body => HProgram body (all body)
  end.
End node_induction.

(** The object and property an entry is filed under. *)
Definition slot (e : RestrictedCall) : option string * option string :=
  (object e, property e).

(** An entry applies to an access site: a property-only entry to a site
    with its property among the names, an object-only entry to a site on
    its object, an entry with both to a site on its object with its
    property among the names. *)
Definition applies (e : RestrictedCall) (objectName : jsval) (names : list jsval)
  : Prop :=
  match object e, property e with
  | None, p => to_js p ∈ names
  | Some o, None => objectName = JString o
  | Some o, Some p => objectName = JString o ∧ JString p ∈ names
  end.

(** A report says what an entry restricts: the object tiers name the
    entry's object and either its property or, for an object-only entry,
    the first name of the site; the property tier names the entry's
    property and no object. *)
Definition reports_entry (r : Report) (e : RestrictedCall) (objectName : jsval)
    (names : list jsval) : Prop :=
  data_message r = message_suffix (message e) ∧
  match object e, property e with
  | None, p =>
      messageId r = restrictedProperty ∧ data_objectName r = None ∧
      data_propertyName r = to_js p
  | Some o, None =>
      messageId r = restrictedObjectProperty ∧
      data_objectName r = Some objectName ∧
      data_propertyName r = first_name names
  | Some o, Some p =>
      messageId r = restrictedObjectProperty ∧
      data_objectName r = Some objectName ∧
      data_propertyName r = JString p
  end.

(** An empty [message] replaced by none. *)
Definition drop_empty (msg : option string) : option string :=
  match msg with
  | Some EmptyString => None
  | _ => msg
  end.

Definition drop_empty_message (e : RestrictedCall) : RestrictedCall :=
  {| object := object e; property := property e;
     message := drop_empty (message e) |}.

Definition drop_empty_stored (r : Restricted) : Restricted :=
  {| restricted_message := drop_empty (restricted_message r) |}.

Definition drop_empty_matched (f : Matched) : Matched :=
  {| name := name f; props_message := drop_empty (props_message f) |}.

Definition drop_empty_model (m : Model) : Model :=
  {| restrictedProperties :=
       fmap (M := gmap jsval) (fmap (M := gmap jsval) drop_empty_stored)
            (restrictedProperties m);
     globallyRestrictedObjects :=
       fmap (M := gmap jsval) drop_empty_stored (globallyRestrictedObjects m);
     globallyRestrictedProperties :=
       fmap (M := gmap jsval) drop_empty_stored (globallyRestrictedProperties m) |}.

(** ** What [fun] computes *)

Lemma fun_loop mapName propertyNames (acc : list Matched) :
  foldl (λ arr x,
           match mapName !! x with
           | Some r => arr ++ [{| name := x; props_message := restricted_message r |}]
           | None => arr
           end) acc propertyNames
  = acc ++ matches mapName propertyNames.
Proof.
  revert acc. induction propertyNames as [|x xs IH]; intros acc; simpl.
  - by rewrite app_nil_r.
  - rewrite IH. unfold matches at 2. simpl.
    destruct (mapName !! x) as [r|]; simpl; [|done].
    by rewrite <- app_assoc.
Qed.

Lemma fun_matches mapName propertyNames :
  fun_ mapName propertyNames =
    match matches mapName propertyNames with
    | [] => None
    | found => Some found
    end.
Proof.
  unfold fun_. rewrite fun_loop. simpl.
  by destruct (matches mapName propertyNames).
Qed.

Lemma matches_names mapName propertyNames :
  map name (matches mapName propertyNames)
  = filter (λ x, is_Some (mapName !! x)) propertyNames.
Proof.
  induction propertyNames as [|x xs IH]; [done|].
  unfold matches in *. simpl. rewrite filter_cons.
  destruct (mapName !! x) as [r|] eqn:Hx; simpl.
  - f_equal. exact IH.
  - exact IH.
Qed.

Lemma elem_of_matches mapName propertyNames found :
  found ∈ matches mapName propertyNames ↔
  name found ∈ propertyNames ∧
  mapName !! name found = Some {| restricted_message := props_message found |}.
Proof.
  unfold matches. rewrite list_elem_of_omap. split.
  - intros (x & Hx & Hf). destruct (mapName !! x) as [[r]|] eqn:Hl; [|done].
    simpl in Hf. injection Hf as <-. simpl. by rewrite Hl.
  - intros [Hx Hl]. exists (name found). split; [done|].
    rewrite Hl. simpl. by destruct found.
Qed.

Lemma matches_nil mapName propertyNames :
  matches mapName propertyNames = [] ↔
  ∀ x, x ∈ propertyNames → mapName !! x = None.
Proof.
  split.
  - intros Hnil x Hx. destruct (mapName !! x) as [r|] eqn:Hl; [|done].
    assert ({| name := x; props_message := restricted_message r |}
              ∈ matches mapName propertyNames) as Hin.
    { apply elem_of_matches. simpl. split; [done|]. rewrite Hl. by destruct r. }
    rewrite Hnil in Hin. by apply elem_of_nil in Hin.
  - intros Hnone. destruct (matches mapName propertyNames) as [|f fs] eqn:Hm; [done|].
    assert (f ∈ matches mapName propertyNames) as Hin by (rewrite Hm; left).
    apply elem_of_matches in Hin as [Hx Hl]. by rewrite (Hnone _ Hx) in Hl.
Qed.

(** ** What the table-building loop computes *)

Lemma addRestrictedCall_add_call st opt :
  addRestrictedCall st opt = Some (add_call st opt).
Proof.
  unfold addRestrictedCall, add_call.
  destruct (object opt) as [o|], (property opt) as [p|]; simpl; try done.
  destruct (restrictedProperties st !! JString o) as [inner|] eqn:Hl.
  - rewrite decide_True by eauto. by rewrite Hl.
  - rewrite decide_False by (by intros [? ?]).
    rewrite lookup_insert_eq. simpl. by rewrite insert_insert_eq.
Qed.

Lemma forEach_add_call entries st :
  forEach addRestrictedCall entries st = Some (foldl add_call st entries).
Proof.
  revert st. induction entries as [|e entries IH]; intros st; simpl; [done|].
  by rewrite addRestrictedCall_add_call, IH.
Qed.

Lemma Build_foldl entries : Build entries = Some (foldl add_call empty_model entries).
Proof. apply forEach_add_call. Qed.

Lemma create_cons e entries :
  create (e :: entries) = Some (listeners (foldl add_call empty_model (e :: entries))).
Proof. unfold create. rewrite Build_foldl. done. Qed.

(** ** Where the contents of the tables come from *)

Lemma provenance_empty : provenance [] empty_model.
Proof. split; simpl; intros *; by rewrite ?lookup_empty. Qed.

Lemma provenance_weaken entries e m :
  provenance entries m → provenance (entries ++ [e]) m.
Proof.
  intros [Hs Ho Hp]. split.
  - intros k inner x r Hk Hx.
    destruct (Hs _ _ _ _ Hk Hx) as (e' & o & p & He' & Hrest).
    exists e', o, p. split; [|exact Hrest].
    apply elem_of_app. by left.
  - intros k r Hk. destruct (Ho _ _ Hk) as (e' & o & He' & Hrest).
    exists e', o. split; [|exact Hrest].
    apply elem_of_app. by left.
  - intros x r Hx. destruct (Hp _ _ Hx) as (e' & He' & Hrest).
    exists e'. split; [|exact Hrest].
    apply elem_of_app. by left.
Qed.

Lemma provenance_add_call entries e m :
  provenance entries m → provenance (entries ++ [e]) (add_call m e).
Proof.
  intros Hm. pose proof (provenance_weaken _ e _ Hm) as [Hs Ho Hp].
  assert (e ∈ entries ++ [e]) as He by set_solver.
  unfold add_call.
  destruct (object e) as [o|] eqn:Hobj, (property e) as [p|] eqn:Hprop;
    split; simpl; try done.
  - intros k inner x r Hk Hx.
    apply lookup_insert_Some in Hk as [[<- <-]|[Hne Hk]]; [|by eauto].
    apply lookup_insert_Some in Hx as [[<- <-]|[Hne Hx]].
    { exists e, o, p. done. }
    destruct (restrictedProperties m !! JString o) as [inner|] eqn:Hl;
      simpl in Hx; [by eauto|by rewrite lookup_empty in Hx].
  - intros k r Hk.
    apply lookup_insert_Some in Hk as [[<- <-]|[Hne Hk]]; [|by eauto].
    exists e, o. done.
  - intros x r Hx.
    apply lookup_insert_Some in Hx as [[<- <-]|[Hne Hx]]; [|by eauto].
    exists e. rewrite Hprop. done.
  - intros x r Hx.
    apply lookup_insert_Some in Hx as [[<- <-]|[Hne Hx]]; [|by eauto].
    exists e. rewrite Hprop. done.
Qed.

Lemma provenance_foldl entries :
  provenance entries (foldl add_call empty_model entries).
Proof.
  induction entries as [|e entries IH] using rev_ind.
  - apply provenance_empty.
  - rewrite foldl_snoc. by apply provenance_add_call.
Qed.

(** ** The slot of an entry *)

Lemma stored_add_call_eq m e :
  stored (add_call m e) (object e) (property e)
  = Some {| restricted_message := message e |}.
Proof.
  unfold stored, add_call.
  destruct (object e) as [o|], (property e) as [p|]; simpl;
    by rewrite ?lookup_insert_eq.
Qed.

Lemma stored_add_call_ne m e o p :
  (o, p) ≠ (object e, property e) →
  stored (add_call m e) o p = stored m o p.
Proof.
  unfold stored, add_call. intros Hne.
  destruct (object e) as [oe|], (property e) as [pe|], o as [o|], p as [p|];
    simpl; try done; try (by rewrite lookup_insert_ne by congruence).
  destruct (decide (oe = o)) as [->|Ho].
  - rewrite lookup_insert_eq, lookup_insert_ne by congruence.
    by destruct (restrictedProperties m !! JString o).
  - by rewrite lookup_insert_ne by congruence.
Qed.

Lemma stored_foldl_last l1 e l3 :
  (∀ e', e' ∈ l3 → (object e', property e') ≠ (object e, property e)) →
  stored (foldl add_call empty_model (l1 ++ e :: l3)) (object e) (property e)
  = Some {| restricted_message := message e |}.
Proof.
  induction l3 as [|e3 l3 IH] using rev_ind; intros Hl3.
  - change (l1 ++ [e]) with (l1 ++ [e]). rewrite foldl_snoc.
    apply stored_add_call_eq.
  - rewrite app_comm_cons, app_assoc, foldl_snoc.
    rewrite stored_add_call_ne.
    + apply IH. intros e' He'. apply Hl3. set_solver.
    + intros Heq. eapply (Hl3 e3); [set_solver|]. by symmetry.
Qed.

Lemma stored_foldl_is_Some entries e :
  e ∈ entries →
  is_Some (stored (foldl add_call empty_model entries) (object e) (property e)).
Proof.
  induction entries as [|e' entries IH] using rev_ind; intros He.
  - by apply elem_of_nil in He.
  - rewrite foldl_snoc.
    destruct (decide ((object e, property e) = (object e', property e')))
      as [Heq|Hne].
    + injection Heq as -> ->. rewrite stored_add_call_eq. eauto.
    + rewrite stored_add_call_ne by done. apply IH.
      apply elem_of_app in He as [He|He]; [done|].
      apply list_elem_of_singleton in He as ->. done.
Qed.

(** ** Entries that share a slot, entries that do not *)

Lemma add_call_override m e1 e2 :
  object e1 = object e2 → property e1 = property e2 →
  add_call (add_call m e1) e2 = add_call m e2.
Proof.
  unfold add_call. intros <- <-.
  destruct (object e1) as [o|], (property e1) as [p|]; simpl; f_equal;
    try apply insert_insert_eq.
  rewrite lookup_insert_eq. simpl. by rewrite !insert_insert_eq.
Qed.

Lemma add_call_commute m e1 e2 :
  (object e1, property e1) ≠ (object e2, property e2) →
  add_call (add_call m e1) e2 = add_call (add_call m e2) e1.
Proof.
  unfold add_call. intros Hne.
  destruct (object e1) as [o1|], (property e1) as [p1|],
           (object e2) as [o2|], (property e2) as [p2|]; simpl; f_equal;
    try done; try (apply insert_insert_ne; congruence).
  destruct (decide (o1 = o2)) as [->|Ho].
  - rewrite !lookup_insert_eq. simpl. rewrite !insert_insert_eq.
    f_equal. apply insert_insert_ne. congruence.
  - rewrite !lookup_insert_ne by congruence.
    apply insert_insert_ne. congruence.
Qed.

Lemma foldl_add_call_absorb m e1 l2 e2 :
  object e1 = object e2 → property e1 = property e2 →
  add_call (foldl add_call (add_call m e1) l2) e2
  = add_call (foldl add_call m l2) e2.
Proof.
  intros Ho Hp. revert m. induction l2 as [|x l2 IH]; intros m; simpl.
  - by apply add_call_override.
  - destruct (decide ((object e1, property e1) = (object x, property x)))
      as [Heq|Hne].
    + injection Heq as Hox Hpx. by rewrite add_call_override.
    + rewrite add_call_commute by done. apply IH.
Qed.

Lemma foldl_add_call_shadowed l1 e1 l2 e2 l3 :
  object e1 = object e2 → property e1 = property e2 →
  foldl add_call empty_model (l1 ++ e1 :: l2 ++ e2 :: l3)
  = foldl add_call empty_model (l1 ++ l2 ++ e2 :: l3).
Proof.
  intros Ho Hp. rewrite !foldl_app. simpl. rewrite !foldl_app. simpl.
  by rewrite foldl_add_call_absorb.
Qed.

Lemma flat_map_nil {A B : Type} (f : A → list B) (l : list A) :
  Forall (λ x, f x = []) l → flat_map f l = [].
Proof. induction 1 as [|x l Hx _ IH]; simpl; [done|]. by rewrite Hx, IH. Qed.

(** Without callbacks the traversal reports nothing. *)
Lemma traverse_no_listeners (n : node) : traverse no_listeners n = [].
Proof.
  induction n using node_tree_ind; simpl;
    rewrite ?IHn, ?IHn1, ?IHn2, ?flat_map_nil by done; try done.
  destruct init as [e|]; [|done]. by rewrite (H e).
Qed.

(** ** The three tiers of [checkPropertyAccess] *)

Lemma checkPropertyAccess_tiers m n objectName names :
  checkPropertyAccess m n objectName (Some names) =
    match scoped_matches m objectName names with
    | [] =>
        match matches (globallyRestrictedProperties m) names with
        | [] =>
            match globallyRestrictedObjects m !! objectName with
            | Some found => [report_object n objectName names found]
            | None => []
            end
        | found => map (report_property n) found
        end
    | found => map (report_scoped n objectName) found
    end.
Proof.
  unfold checkPropertyAccess, scoped_matches.
  rewrite (fun_matches (globallyRestrictedProperties m)).
  destruct (restrictedProperties m !! objectName) as [inner|].
  - rewrite fun_matches. destruct (matches inner names); [|done].
    by destruct (matches (globallyRestrictedProperties m) names).
  - by destruct (matches (globallyRestrictedProperties m) names).
Qed.

Lemma create_nonempty entries :
  entries ≠ [] →
  create entries = Some (listeners (foldl add_call empty_model entries)).
Proof. destruct entries; [done|]. intros _. apply create_cons. Qed.

Lemma scoped_matches_provenance entries o names found :
  found ∈ scoped_matches (foldl add_call empty_model entries) (JString o) names →
  ∃ e q, e ∈ entries ∧ object e = Some o ∧ property e = Some q ∧
         JString q ∈ names ∧ name found = JString q ∧
         props_message found = message e.
Proof.
  unfold scoped_matches.
  destruct (restrictedProperties _ !! JString o) as [inner|] eqn:Hk;
    [|by intros ?%elem_of_nil].
  intros [Hx Hl]%elem_of_matches.
  destruct (prov_scoped _ _ (provenance_foldl entries) _ _ _ _ Hk Hl)
    as (e & o' & q & He & Ho & Hq & Hko & Hxq & Hr).
  exists e, q. injection Hko as <-. injection Hr as Hr.
  rewrite <- Hxq. done.
Qed.

Lemma scoped_matches_none entries objectName names :
  (∀ e o q, e ∈ entries → object e = Some o → property e = Some q →
            objectName = JString o → JString q ∉ names) →
  scoped_matches (foldl add_call empty_model entries) objectName names = [].
Proof.
  intros Hnone. unfold scoped_matches.
  destruct (restrictedProperties _ !! objectName) as [inner|] eqn:Hk; [|done].
  apply matches_nil. intros x Hx.
  destruct (inner !! x) as [r|] eqn:Hl; [|done].
  destruct (prov_scoped _ _ (provenance_foldl entries) _ _ _ _ Hk Hl)
    as (e & o & q & He & Ho & Hq & Hko & Hxq & Hr).
  subst x. by destruct (Hnone e o q).
Qed.

Lemma property_matches_none entries names :
  (∀ e, e ∈ entries → object e = None → to_js (property e) ∉ names) →
  matches (globallyRestrictedProperties (foldl add_call empty_model entries)) names
  = [].
Proof.
  intros Hnone. apply matches_nil. intros x Hx.
  destruct (globallyRestrictedProperties _ !! x) as [r|] eqn:Hl; [|done].
  destruct (prov_properties _ _ (provenance_foldl entries) _ _ Hl)
    as (e & He & Ho & Hxp & Hr).
  subst x. by destruct (Hnone e).
Qed.

Lemma property_restricted_iff entries x :
  is_Some (globallyRestrictedProperties (foldl add_call empty_model entries) !! x)
  ↔ ∃ e, e ∈ entries ∧ object e = None ∧ to_js (property e) = x.
Proof.
  split.
  - intros [r Hl].
    destruct (prov_properties _ _ (provenance_foldl entries) _ _ Hl)
      as (e & He & Ho & Hxp & Hr).
    by exists e.
  - intros (e & He & Ho & <-).
    pose proof (stored_foldl_is_Some entries e He) as Hs.
    by rewrite Ho in Hs.
Qed.

(** * The claims *)

(** C1 does not hold of the code: the member access [o[prop]] with an
    identifier as computed key has no statically known property name, and
    under the single global object restriction on [o] the rule reports it
    all the same. The name list [[null]] passes the [propertyName === null]
    guard, no property tier matches, and the global-object tier reports
    once with the property name [null]. *)
Theorem computed_access_on_restricted_object_reported (o prop : string)
    (msg : option string) :
  let n := MemberExpression (Identifier o) (Identifier prop) true in
  getStaticPropertyName n = JNull ∧
  visit [{| object := Some o; property := None; message := msg |}] n
  = Some [{| report_node := n;
             messageId := restrictedObjectProperty;
             data_objectName := Some (JString o);
             data_propertyName := JNull;
             data_message := message_suffix msg |}].
Proof.
  intros n. split; [done|].
  unfold visit. rewrite create_cons.
  cbn [dispatch listeners onMemberExpression call visitMemberExpression n].
  rewrite checkPropertyAccess_tiers. unfold scoped_matches, matches.
  cbn [foldl add_call object property message empty_model restrictedProperties
       globallyRestrictedProperties globallyRestrictedObjects node_name
       getStaticPropertyName static_key_name omap list_omap].
  by rewrite !lookup_empty, lookup_insert_eq.
Qed.

(** Apart from the global-object tier a computed key matches nothing: no
    table has the key [null]. *)
Lemma computed_access_matches_no_property entries objectName :
  let m := foldl add_call empty_model entries in
  scoped_matches m objectName [JNull] = [] ∧
  matches (globallyRestrictedProperties m) [JNull] = [].
Proof.
  split.
  - apply scoped_matches_none. intros e o q _ _ _ _ Hin.
    by apply list_elem_of_singleton in Hin.
  - apply property_matches_none. intros e _ _ Hin.
    apply list_elem_of_singleton in Hin. by destruct (property e).
Qed.

(** C2 as stated fails: [this.bar] is a member access whose object is not
    an identifier, and under the global property restriction on [bar] the
    rule reports it. *)
Lemma non_identifier_object_reported :
  (∀ s, ThisExpression ≠ Identifier s) ∧
  visit [{| object := None; property := Some "bar"; message := None |}]
        (MemberExpression ThisExpression (Identifier "bar") false)
  = Some [{| report_node := MemberExpression ThisExpression (Identifier "bar") false;
             messageId := restrictedProperty;
             data_objectName := None;
             data_propertyName := JString "bar";
             data_message := "" |}].
Proof. split; [done|]. vm_compute. reflexivity. Qed.

(** C2 as the code has it: on a member access whose object is not a bare
    identifier neither the scoped nor the global-object tier fires. The
    rule makes at most one report; it is a [restrictedProperty] report for
    the statically known property name, made for a global property
    restriction on that name; where no entry is such a restriction, nothing
    is reported. *)
Theorem non_identifier_object_only_global_property
    (entries : list RestrictedCall) (obj prop : node) (computed : bool) :
  (∀ s, obj ≠ Identifier s) →
  let n := MemberExpression obj prop computed in
  ∃ reports,
    visit entries n = Some reports ∧
    (length reports ≤ 1)%nat ∧
    Forall (λ r, report_node r = n ∧
                 messageId r = restrictedProperty ∧
                 data_objectName r = None ∧
                 data_propertyName r = getStaticPropertyName n ∧
                 ∃ e, e ∈ entries ∧ object e = None ∧
                      to_js (property e) = getStaticPropertyName n ∧
                      data_message r = message_suffix (message e)) reports ∧
    ((∀ e, e ∈ entries → object e = None →
           to_js (property e) ≠ getStaticPropertyName n) →
     reports = []).
Proof.
  intros Hobj n. unfold visit.
  destruct entries as [|e0 entries]; [by exists []; simpl; eauto|].
  rewrite create_cons. set (m := foldl add_call empty_model (e0 :: entries)).
  eexists. split; [reflexivity|].
  assert (node_name obj = JUndefined) as Hname.
  { destruct obj; try done. exfalso. by eapply Hobj. }
  cbn [dispatch listeners onMemberExpression call visitMemberExpression n].
  rewrite Hname, checkPropertyAccess_tiers.
  assert (scoped_matches m JUndefined [getStaticPropertyName n] = []) as ->.
  { by apply scoped_matches_none. }
  assert (globallyRestrictedObjects m !! JUndefined = None) as ->.
  { destruct (globallyRestrictedObjects m !! JUndefined) as [r|] eqn:Hl; [|done].
    by destruct (prov_objects _ _ (provenance_foldl _) _ _ Hl)
      as (e & o & _ & _ & _ & ? & _). }
  unfold matches. cbn [omap list_omap].
  destruct (globallyRestrictedProperties m !! getStaticPropertyName n)
    as [r|] eqn:Hl; cbn [fmap option_fmap option_map].
  - destruct (prov_properties _ _ (provenance_foldl _) _ _ Hl)
      as (e & He & Ho & Hx & ->).
    simpl. split; [lia|]. split.
    + repeat constructor. exists e. done.
    + intros Hnone. by destruct (Hnone e He Ho).
  - simpl. split; [lia|]. split; [constructor|done].
Qed.

Lemma non_identifier_object_only_global_property_witness :
  (∀ s, ThisExpression ≠ Identifier s) ∧
  ∃ reports,
    visit [{| object := None; property := Some "bar"; message := Some "no" |};
           {| object := Some "foo"; property := None; message := None |}]
          (MemberExpression ThisExpression (Identifier "bar") false)
    = Some reports ∧
    (length reports ≤ 1)%nat ∧
    Forall (λ r, report_node r = MemberExpression ThisExpression (Identifier "bar") false ∧
                 messageId r = restrictedProperty ∧
                 data_objectName r = None ∧
                 data_propertyName r = JString "bar" ∧
                 ∃ e, e ∈ [{| object := None; property := Some "bar"; message := Some "no" |};
                           {| object := Some "foo"; property := None; message := None |}] ∧
                      object e = None ∧
                      to_js (property e) = JString "bar" ∧
                      data_message r = message_suffix (message e)) reports ∧
    ((∀ e, e ∈ [{| object := None; property := Some "bar"; message := Some "no" |};
                {| object := Some "foo"; property := None; message := None |}] →
           object e = None → to_js (property e) ≠ JString "bar") →
     reports = []).
Proof.
  split; [done|].
  apply (non_identifier_object_only_global_property
           [{| object := None; property := Some "bar"; message := Some "no" |};
            {| object := Some "foo"; property := None; message := None |}]
           ThisExpression (Identifier "bar") false).
  done.
Defined.

(** C3: at an access site on object [o] whose names include [p], with both
    a scoped restriction on [o.p] and a global property restriction on [p]
    configured, only the scoped tier fires although the global-property
    tier matches as well: the reports are exactly the scoped matches of the
    site, there is at least one, and each is a [restrictedObjectProperty]
    report on [o] for a name of the site, with the message of a configured
    scoped entry on [o] and that name. *)
Theorem scoped_tier_shadows_global_property
    (entries : list RestrictedCall) (es eg : RestrictedCall) (o p : string)
    (n : node) (names : list jsval) :
  es ∈ entries → object es = Some o → property es = Some p →
  eg ∈ entries → object eg = None → property eg = Some p →
  JString p ∈ names →
  ∃ m, Build entries = Some m ∧
       fun_ (globallyRestrictedProperties m) names ≠ None ∧
       let reports := checkPropertyAccess m n (JString o) (Some names) in
       reports ≠ [] ∧
       reports = map (report_scoped n (JString o))
                     (scoped_matches m (JString o) names) ∧
       Forall (λ r, messageId r = restrictedObjectProperty ∧
                    data_objectName r = Some (JString o) ∧
                    ∃ e q, e ∈ entries ∧ object e = Some o ∧
                           property e = Some q ∧ JString q ∈ names ∧
                           data_propertyName r = JString q ∧
                           data_message r = message_suffix (message e))
              reports.
Proof.
  intros Hes Hos Hps Heg Hog Hpg Hp.
  exists (foldl add_call empty_model entries). split; [apply Build_foldl|].
  set (m := foldl add_call empty_model entries).
  assert (∃ found founds, scoped_matches m (JString o) names = found :: founds)
    as (found & founds & Hfound).
  { pose proof (stored_foldl_is_Some entries es Hes) as [r Hr].
    rewrite Hos, Hps in Hr. simpl in Hr. fold m in Hr.
    unfold scoped_matches.
    destruct (restrictedProperties m !! JString o) as [inner|]; [|done].
    destruct (matches inner names) as [|f fs] eqn:Hm; [|by eauto].
    rewrite (proj1 (matches_nil _ _) Hm _ Hp) in Hr. done. }
  split.
  { rewrite fun_matches.
    pose proof (stored_foldl_is_Some entries eg Heg) as [r Hr].
    rewrite Hog, Hpg in Hr. simpl in Hr. fold m in Hr.
    destruct (matches (globallyRestrictedProperties m) names) eqn:Hm; [|done].
    rewrite (proj1 (matches_nil _ _) Hm _ Hp) in Hr. done. }
  cbn zeta. rewrite checkPropertyAccess_tiers, Hfound.
  split; [done|]. split; [done|].
  rewrite <- Hfound. apply Forall_forall. intros r Hr.
  apply list_elem_of_fmap in Hr as (f & -> & Hf).
  apply scoped_matches_provenance in Hf as (e & q & He & Ho & Hq & Hin & Hn & Hm).
  simpl. split; [done|]. split; [done|].
  exists e, q. by rewrite Hm.
Qed.

Lemma scoped_tier_shadows_global_property_witness :
  let entries := [{| object := Some "foo"; property := Some "a"; message := Some "scoped" |};
                  {| object := None; property := Some "a"; message := Some "global" |}] in
  let n := MemberExpression (Identifier "foo") (Identifier "a") false in
  ∃ m, Build entries = Some m ∧
       fun_ (globallyRestrictedProperties m) [JString "a"] ≠ None ∧
       let reports := checkPropertyAccess m n (JString "foo") (Some [JString "a"]) in
       reports ≠ [] ∧
       reports = map (report_scoped n (JString "foo"))
                     (scoped_matches m (JString "foo") [JString "a"]) ∧
       Forall (λ r, messageId r = restrictedObjectProperty ∧
                    data_objectName r = Some (JString "foo") ∧
                    ∃ e q, e ∈ entries ∧ object e = Some "foo" ∧
                           property e = Some q ∧ JString q ∈ [JString "a"] ∧
                           data_propertyName r = JString q ∧
                           data_message r = message_suffix (message e))
              reports.
Proof.
  intros entries n.
  apply (scoped_tier_shadows_global_property entries
           {| object := Some "foo"; property := Some "a"; message := Some "scoped" |}
           {| object := None; property := Some "a"; message := Some "global" |}
           "foo" "a" n [JString "a"]);
    try reflexivity; repeat constructor.
Defined.

(** C4: at an access site on object [o], with an entry that sets only
    [object] to [o] configured and neither the scoped nor the
    global-property tier matching any name of the site, exactly one report
    is made, whatever and however many the names are: a
    [restrictedObjectProperty] report on [o] whose property name is
    [names[0]], the first name of the site, with the message of a
    configured object-only entry on [o]. *)
Theorem global_object_tier_reports_once
    (entries : list RestrictedCall) (eo : RestrictedCall) (o : string)
    (n : node) (names : list jsval) :
  eo ∈ entries → object eo = Some o → property eo = None →
  (∀ e q, e ∈ entries → object e = Some o → property e = Some q →
          JString q ∉ names) →
  (∀ e, e ∈ entries → object e = None → to_js (property e) ∉ names) →
  ∃ m e, Build entries = Some m ∧
         e ∈ entries ∧ object e = Some o ∧ property e = None ∧
         checkPropertyAccess m n (JString o) (Some names)
         = [{| report_node := n;
               messageId := restrictedObjectProperty;
               data_objectName := Some (JString o);
               data_propertyName := first_name names;
               data_message := message_suffix (message e) |}] ∧
         (∀ x xs, names = x :: xs → first_name names = x).
Proof.
  intros Heo Ho Hp Hscoped Hglobal.
  set (m := foldl add_call empty_model entries).
  pose proof (stored_foldl_is_Some entries eo Heo) as [r Hr].
  rewrite Ho, Hp in Hr. simpl in Hr. fold m in Hr.
  destruct (prov_objects _ _ (provenance_foldl entries) _ _ Hr)
    as (e & o' & He & Hoe & Hpe & Hk & ->).
  injection Hk as <-.
  exists m, e. split; [apply Build_foldl|]. do 3 (split; [done|]).
  split; [|by intros x xs ->].
  rewrite checkPropertyAccess_tiers.
  unfold m at 1. rewrite scoped_matches_none; last first.
  { intros e' o' q He' Ho' Hq [= <-]. by eapply Hscoped. }
  unfold m at 1. rewrite property_matches_none by done.
  by rewrite Hr.
Qed.

Lemma global_object_tier_reports_once_witness :
  let entries := [{| object := Some "foo"; property := None; message := Some "no foo" |};
                  {| object := Some "foo"; property := Some "z"; message := None |};
                  {| object := None; property := Some "y"; message := None |}] in
  let n := ObjectPattern [] in
  let names := [JString "b"; JString "a"; JString "c"] in
  ∃ m e, Build entries = Some m ∧
         e ∈ entries ∧ object e = Some "foo" ∧ property e = None ∧
         checkPropertyAccess m n (JString "foo") (Some names)
         = [{| report_node := n;
               messageId := restrictedObjectProperty;
               data_objectName := Some (JString "foo");
               data_propertyName := first_name names;
               data_message := message_suffix (message e) |}] ∧
         (∀ x xs, names = x :: xs → first_name names = x).
Proof.
  intros entries n names.
  apply (global_object_tier_reports_once entries
           {| object := Some "foo"; property := None; message := Some "no foo" |}
           "foo" n names); try reflexivity.
  - repeat constructor.
  - intros e q He _ Hq Hin. unfold entries, names in *.
    list_cases; discriminate.
  - intros e He Ho Hin. unfold entries, names in *.
    list_cases; discriminate.
Defined.

(** C6: at an access site where the scoped tier matches no name and at
    least one name is globally property-restricted, one
    [restrictedProperty] report is made for every occurrence of a
    restricted name, all of them, in the order of the names of the site. A
    name is restricted exactly when an entry without [object] has it as
    [property], and each report carries the message of such an entry. *)
Theorem global_property_tier_reports_all
    (entries : list RestrictedCall) (n : node) (objectName : jsval)
    (names : list jsval) :
  (∀ e o q, e ∈ entries → object e = Some o → property e = Some q →
            objectName = JString o → JString q ∉ names) →
  (∃ e, e ∈ entries ∧ object e = None ∧ to_js (property e) ∈ names) →
  ∃ m, Build entries = Some m ∧
       (∀ x, is_Some (globallyRestrictedProperties m !! x) ↔
             ∃ e, e ∈ entries ∧ object e = None ∧ to_js (property e) = x) ∧
       let reports := checkPropertyAccess m n objectName (Some names) in
       reports = map (report_property n)
                     (matches (globallyRestrictedProperties m) names) ∧
       map data_propertyName reports
       = filter (λ x, is_Some (globallyRestrictedProperties m !! x)) names ∧
       Forall (λ r, report_node r = n ∧
                    messageId r = restrictedProperty ∧
                    ∃ e, e ∈ entries ∧ object e = None ∧
                         to_js (property e) = data_propertyName r ∧
                         data_message r = message_suffix (message e))
              reports.
Proof.
  intros Hscoped (eg & Heg & Hog & Hin).
  exists (foldl add_call empty_model entries). split; [apply Build_foldl|].
  split; [apply property_restricted_iff|].
  set (m := foldl add_call empty_model entries). cbn zeta.
  assert (checkPropertyAccess m n objectName (Some names)
          = map (report_property n) (matches (globallyRestrictedProperties m) names))
    as ->.
  { rewrite checkPropertyAccess_tiers.
    unfold m at 1. rewrite scoped_matches_none by done.
    destruct (matches (globallyRestrictedProperties m) names) eqn:Hm; [|done].
    pose proof (proj2 (property_restricted_iff entries (to_js (property eg))))
      as [r Hr]; [by exists eg|].
    fold m in Hr. by rewrite (proj1 (matches_nil _ _) Hm _ Hin) in Hr. }
  split; [done|]. split.
  - rewrite <- matches_names, map_map. done.
  - apply Forall_forall. intros r Hr.
    apply list_elem_of_fmap in Hr as (f & -> & [Hf Hl]%elem_of_matches).
    destruct (prov_properties _ _ (provenance_foldl entries) _ _ Hl)
      as (e & He & Ho & Hx & Hr).
    simpl. split; [done|]. split; [done|].
    exists e. injection Hr as ->. done.
Qed.

Lemma global_property_tier_reports_all_witness :
  let entries := [{| object := None; property := Some "a"; message := Some "no a" |};
                  {| object := None; property := Some "b"; message := None |};
                  {| object := Some "bar"; property := Some "c"; message := None |}] in
  let n := ObjectPattern [] in
  let names := [JString "b"; JString "c"; JString "a"] in
  ∃ m, Build entries = Some m ∧
       (∀ x, is_Some (globallyRestrictedProperties m !! x) ↔
             ∃ e, e ∈ entries ∧ object e = None ∧ to_js (property e) = x) ∧
       let reports := checkPropertyAccess m n (JString "foo") (Some names) in
       reports = map (report_property n)
                     (matches (globallyRestrictedProperties m) names) ∧
       map data_propertyName reports
       = filter (λ x, is_Some (globallyRestrictedProperties m !! x)) names ∧
       Forall (λ r, report_node r = n ∧
                    messageId r = restrictedProperty ∧
                    ∃ e, e ∈ entries ∧ object e = None ∧
                         to_js (property e) = data_propertyName r ∧
                         data_message r = message_suffix (message e))
              reports.
Proof.
  intros entries n names.
  apply (global_property_tier_reports_all entries n (JString "foo") names).
  - intros e o q He Ho Hq Hname Hin. unfold entries, names in *.
    list_cases; discriminate.
  - exists {| object := None; property := Some "a"; message := Some "no a" |}.
    split; [repeat constructor|]. split; [reflexivity|]. repeat constructor.
Defined.

(** For [const { b, c: x, a } = foo;] with [a] and [b] restricted on every
    object: both restricted names are reported, [b] before [a] as in the
    pattern. *)
Example global_property_tier_two_reports :
  lint [{| object := None; property := Some "a"; message := Some "no a" |};
        {| object := None; property := Some "b"; message := None |}]
       (VariableDeclarator
          (ObjectPattern [Property (Identifier "b") (Identifier "b") false true;
                          Property (Identifier "c") (Identifier "x") false false;
                          Property (Identifier "a") (Identifier "a") false true])
          (Some (Identifier "foo")))
  = Some (map (λ '(x, msg),
                 {| report_node :=
                      ObjectPattern
                        [Property (Identifier "b") (Identifier "b") false true;
                         Property (Identifier "c") (Identifier "x") false false;
                         Property (Identifier "a") (Identifier "a") false true];
                    messageId := restrictedProperty;
                    data_objectName := None;
                    data_propertyName := JString x;
                    data_message := msg |})
              [("b", ""); ("a", " no a")]).
Proof. vm_compute. reflexivity. Qed.

(** C7: the table-building loop never fails, and each entry goes into
    exactly one table, the other two staying as they were: without
    [object], its property name with its message into the global-property
    table; otherwise without [property], its object name with its message
    into the global-object table; otherwise its property name with its
    message into the object's own table inside the scoped table. *)
Theorem Build_partitions_entries (entries : list RestrictedCall)
    (e : RestrictedCall) :
  ∃ m m',
    Build entries = Some m ∧
    Build (entries ++ [e]) = Some m' ∧
    let entry := {| restricted_message := message e |} in
    match object e, property e with
    | None, p =>
        globallyRestrictedProperties m'
        = <[to_js p := entry]> (globallyRestrictedProperties m) ∧
        globallyRestrictedObjects m' = globallyRestrictedObjects m ∧
        restrictedProperties m' = restrictedProperties m
    | Some o, None =>
        globallyRestrictedObjects m'
        = <[JString o := entry]> (globallyRestrictedObjects m) ∧
        globallyRestrictedProperties m' = globallyRestrictedProperties m ∧
        restrictedProperties m' = restrictedProperties m
    | Some o, Some p =>
        restrictedProperties m' !! JString o
        = Some (<[JString p := entry]>
                  (default ∅ (restrictedProperties m !! JString o))) ∧
        (∀ k, k ≠ JString o →
              restrictedProperties m' !! k = restrictedProperties m !! k) ∧
        globallyRestrictedProperties m' = globallyRestrictedProperties m ∧
        globallyRestrictedObjects m' = globallyRestrictedObjects m
    end.
Proof.
  exists (foldl add_call empty_model entries),
         (foldl add_call empty_model (entries ++ [e])).
  split; [apply Build_foldl|]. split; [apply Build_foldl|].
  rewrite foldl_snoc. unfold add_call. cbn zeta.
  destruct (object e) as [o|], (property e) as [p|]; simpl; try done.
  split; [apply lookup_insert_eq|]. split; [|done].
  intros k Hk. by apply lookup_insert_ne.
Qed.

(** ** The three ways of reading a property *)

(** C5: under the single scoped restriction on [foo.a], whatever its
    message, each of [const { a } = foo;], [({ a } = foo);] and [foo.a;]
    yields exactly one report, at the callback of its declarator,
    assignment or member access and over the whole program, and the three
    agree in everything but the node they are anchored at:
    [restrictedObjectProperty] on [foo] with property name [a]. *)
Theorem destructuring_forms_agree (msg : option string) :
  let options := [{| object := Some "foo"; property := Some "a"; message := msg |}] in
  let report_at (n : node) :=
    {| report_node := n;
       messageId := restrictedObjectProperty;
       data_objectName := Some (JString "foo");
       data_propertyName := JString "a";
       data_message := message_suffix msg |} in
  let member := MemberExpression (Identifier "foo") (Identifier "a") false in
  (visit options (VariableDeclarator pattern_a (Some (Identifier "foo")))
   = Some [report_at pattern_a] ∧
   visit options (AssignmentExpression pattern_a (Identifier "foo"))
   = Some [report_at pattern_a] ∧
   visit options member = Some [report_at member]) ∧
  (lint options declaration_form = Some [report_at pattern_a] ∧
   lint options assignment_form = Some [report_at pattern_a] ∧
   lint options member_form = Some [report_at member]).
Proof. intros options report_at member. repeat split; vm_compute; reflexivity. Qed.

(** C8: with the configuration
    [[{object: "foo", property: "bar", message: "Use baz instead."}]] the
    program [foo.bar;] yields exactly one report: [restrictedObjectProperty]
    with object name [foo], property name [bar] and the message with one
    space before it. *)
Theorem foo_bar_example :
  let options := [{| object := Some "foo"; property := Some "bar";
                     message := Some "Use baz instead." |}] in
  let foo_bar := MemberExpression (Identifier "foo") (Identifier "bar") false in
  let reports := [{| report_node := foo_bar;
                     messageId := restrictedObjectProperty;
                     data_objectName := Some (JString "foo");
                     data_propertyName := JString "bar";
                     data_message := " Use baz instead." |}] in
  visit options foo_bar = Some reports ∧
  lint options (Program [ExpressionStatement foo_bar]) = Some reports.
Proof. split; vm_compute; reflexivity. Qed.

(** C9: with no configured entry [create] returns the empty object, no
    callback under any node kind, and linting any program reports
    nothing. *)
Theorem no_options_no_listeners :
  create [] = Some no_listeners ∧
  (∀ n, dispatch no_listeners n = []) ∧
  (∀ program, lint [] program = Some []).
Proof.
  split; [done|]. split.
  - by intros [].
  - intros program. unfold lint. simpl. by rewrite traverse_no_listeners.
Qed.

(** C10: when a later entry has the same [object] and [property] as an
    earlier one, the configuration is accepted and behaves as if the earlier
    entry were not there: the same callbacks, hence the same reports on
    every program. And where no entry after the later one has that
    [object] and [property] again, the tables hold the later entry's
    message in their slot. *)
Theorem later_entry_overwrites_earlier
    (l1 : list RestrictedCall) (e1 : RestrictedCall) (l2 : list RestrictedCall)
    (e2 : RestrictedCall) (l3 : list RestrictedCall) :
  object e1 = object e2 → property e1 = property e2 →
  let options := l1 ++ e1 :: l2 ++ e2 :: l3 in
  let without_e1 := l1 ++ l2 ++ e2 :: l3 in
  (∃ m, Build options = Some m ∧ Build without_e1 = Some m ∧
        create options = Some (listeners m) ∧
        create without_e1 = Some (listeners m) ∧
        ((∀ e, e ∈ l3 → (object e, property e) ≠ (object e2, property e2)) →
         stored m (object e2) (property e2)
         = Some {| restricted_message := message e2 |})) ∧
  (∀ program, lint options program = lint without_e1 program).
Proof.
  intros Ho Hp options without_e1.
  assert (options ≠ []) as Hne1 by (unfold options; by destruct l1).
  assert (without_e1 ≠ []) as Hne2 by (unfold without_e1; by destruct l1, l2).
  assert (foldl add_call empty_model options
          = foldl add_call empty_model without_e1) as Heq
    by (by apply foldl_add_call_shadowed).
  split.
  - exists (foldl add_call empty_model options).
    split; [apply Build_foldl|].
    split; [rewrite Heq; apply Build_foldl|].
    split; [by apply create_nonempty|].
    split; [rewrite Heq; by apply create_nonempty|].
    intros Hl3. unfold options.
    replace (l1 ++ e1 :: l2 ++ e2 :: l3) with ((l1 ++ e1 :: l2) ++ e2 :: l3)
      by (by rewrite <- app_assoc).
    by apply stored_foldl_last.
  - intros program. unfold lint.
    by rewrite (create_nonempty _ Hne1), (create_nonempty _ Hne2), Heq.
Qed.

Lemma later_entry_overwrites_earlier_witness :
  let e1 := {| object := Some "foo"; property := Some "a"; message := Some "first" |} in
  let e2 := {| object := Some "foo"; property := Some "a"; message := Some "second" |} in
  let other := {| object := None; property := Some "a"; message := Some "first" |} in
  let options := [] ++ e1 :: [other] ++ e2 :: [] in
  let without_e1 := [] ++ [other] ++ e2 :: [] in
  (∃ m, Build options = Some m ∧ Build without_e1 = Some m ∧
        create options = Some (listeners m) ∧
        create without_e1 = Some (listeners m) ∧
        ((∀ e, e ∈ [] → (object e, property e) ≠ (object e2, property e2)) →
         stored m (object e2) (property e2)
         = Some {| restricted_message := message e2 |})) ∧
  (∀ program, lint options program = lint without_e1 program).
Proof.
  intros e1 e2 other.
  apply (later_entry_overwrites_earlier [] e1 [other] e2 []); reflexivity.
Defined.

(** Two entries on [foo.a] with different messages: the report carries the
    later one. *)
Example later_message_reported :
  lint [{| object := Some "foo"; property := Some "a"; message := Some "first" |};
        {| object := Some "foo"; property := Some "a"; message := Some "second" |}]
       member_form
  = Some [{| report_node := MemberExpression (Identifier "foo") (Identifier "a") false;
             messageId := restrictedObjectProperty;
             data_objectName := Some (JString "foo");
             data_propertyName := JString "a";
             data_message := " second" |}].
Proof. vm_compute. reflexivity. Qed.

(** * Further properties of the code *)

(** ** The matching helper *)

(** [fun] never returns an empty array: it returns [undefined] exactly when
    no name is a key of the table, and otherwise the names that are keys,
    every occurrence, in the order given, each with the stored message. *)
Theorem fun_undefined_or_all_matches (mapName : gmap jsval Restricted)
    (propertyNames : list jsval) :
  match fun_ mapName propertyNames with
  | None => ∀ x, x ∈ propertyNames → mapName !! x = None
  | Some found =>
      found ≠ [] ∧
      map name found = filter (λ x, is_Some (mapName !! x)) propertyNames ∧
      Forall (λ f, mapName !! name f
                   = Some {| restricted_message := props_message f |}) found
  end.
Proof.
  rewrite fun_matches.
  destruct (matches mapName propertyNames) as [|f fs] eqn:Hm.
  - by apply matches_nil.
  - split; [done|]. rewrite <- Hm. split; [apply matches_names|].
    apply Forall_forall. by intros g [_ Hg]%elem_of_matches.
Qed.

(** ** Reports and entries *)

Lemma scoped_report_entry entries objectName names found :
  found ∈ scoped_matches (foldl add_call empty_model entries) objectName names →
  ∃ e o q, e ∈ entries ∧ object e = Some o ∧ property e = Some q ∧
           objectName = JString o ∧ JString q ∈ names ∧
           name found = JString q ∧ props_message found = message e.
Proof.
  unfold scoped_matches.
  destruct (restrictedProperties _ !! objectName) as [inner|] eqn:Hk;
    [|by intros ?%elem_of_nil].
  intros [Hx Hl]%elem_of_matches.
  destruct (prov_scoped _ _ (provenance_foldl entries) _ _ _ _ Hk Hl)
    as (e & o & q & He & Ho & Hq & Hko & Hxq & Hr).
  exists e, o, q. injection Hr as Hr. rewrite <- Hxq. done.
Qed.

(** No report without a restriction: every report of a call is anchored at
    the node given and says what some configured entry that applies to the
    site restricts, with that entry's message. *)
Theorem every_report_has_an_entry (entries : list RestrictedCall) :
  ∃ m, Build entries = Some m ∧
       ∀ n objectName names,
         Forall (λ r, report_node r = n ∧
                      ∃ e, e ∈ entries ∧ applies e objectName names ∧
                           reports_entry r e objectName names)
                (checkPropertyAccess m n objectName (Some names)).
Proof.
  exists (foldl add_call empty_model entries). split; [apply Build_foldl|].
  intros n objectName names. set (m := foldl add_call empty_model entries).
  rewrite checkPropertyAccess_tiers. apply Forall_forall. intros r.
  destruct (scoped_matches m objectName names) as [|f fs] eqn:Hs.
  - destruct (matches (globallyRestrictedProperties m) names) as [|f fs] eqn:Hp.
    + destruct (globallyRestrictedObjects m !! objectName) as [g|] eqn:Hg;
        [|by intros ?%elem_of_nil].
      intros ->%list_elem_of_singleton. split; [done|].
      destruct (prov_objects _ _ (provenance_foldl entries) _ _ Hg)
        as (e & o & He & Ho & Hpr & -> & ->).
      exists e. unfold applies, reports_entry. rewrite Ho, Hpr. done.
    + rewrite <- Hp.
      intros (g & -> & [Hx Hl]%elem_of_matches)%list_elem_of_fmap.
      split; [done|].
      destruct (prov_properties _ _ (provenance_foldl entries) _ _ Hl)
        as (e & He & Ho & Hn & Hr).
      exists e. unfold applies, reports_entry. rewrite Ho.
      injection Hr as Hr. simpl. rewrite Hr, <- Hn. done.
  - rewrite <- Hs.
    intros (g & -> & Hg)%list_elem_of_fmap. split; [done|].
    apply scoped_report_entry in Hg
      as (e & o & q & He & Ho & Hq & -> & Hin & Hn & Hm).
    exists e. unfold applies, reports_entry. rewrite Ho, Hq. simpl.
    by rewrite Hm, Hn.
Qed.

(** No restriction without a report: where a configured entry applies to
    the site, the call reports at least once. *)
Theorem applying_entry_is_reported (entries : list RestrictedCall)
    (e : RestrictedCall) (n : node) (objectName : jsval) (names : list jsval) :
  e ∈ entries → applies e objectName names →
  ∃ m, Build entries = Some m ∧
       checkPropertyAccess m n objectName (Some names) ≠ [].
Proof.
  intros He Happ.
  exists (foldl add_call empty_model entries). split; [apply Build_foldl|].
  set (m := foldl add_call empty_model entries).
  pose proof (stored_foldl_is_Some entries e He) as [r Hr]. fold m in Hr.
  rewrite checkPropertyAccess_tiers.
  destruct (scoped_matches m objectName names) as [|f fs] eqn:Hs; [|done].
  destruct (matches (globallyRestrictedProperties m) names) as [|f fs] eqn:Hp;
    [|done].
  unfold applies in Happ. unfold stored in Hr.
  destruct (object e) as [o|], (property e) as [p|].
  - destruct Happ as [-> Hin]. unfold scoped_matches in Hs.
    destruct (restrictedProperties m !! JString o) as [inner|]; [|done].
    by rewrite (proj1 (matches_nil _ _) Hs _ Hin) in Hr.
  - subst objectName. by rewrite Hr.
  - by rewrite (proj1 (matches_nil _ _) Hp _ Happ) in Hr.
  - by rewrite (proj1 (matches_nil _ _) Hp _ Happ) in Hr.
Qed.

Lemma applying_entry_is_reported_witness :
  let entries := [{| object := Some "foo"; property := Some "x"; message := None |};
                  {| object := Some "foo"; property := None; message := Some "no foo" |}] in
  let e := {| object := Some "foo"; property := None; message := Some "no foo" |} in
  (e ∈ entries ∧ applies e (JString "foo") [JString "a"]) ∧
  ∃ m, Build entries = Some m ∧
       checkPropertyAccess m (ObjectPattern []) (JString "foo") (Some [JString "a"])
       ≠ [].
Proof.
  intros entries e.
  assert (e ∈ entries) as He by repeat constructor.
  assert (applies e (JString "foo") [JString "a"]) as Happ by reflexivity.
  split; [done|].
  exact (applying_entry_is_reported entries e (ObjectPattern []) (JString "foo")
           [JString "a"] He Happ).
Defined.


Lemma length_matches mapName names :
  (length (matches mapName names) ≤ length names)%nat.
Proof.
  rewrite <- (length_map name), matches_names. apply length_filter.
Qed.

(** A call reports at most once per name of the site, and at most once
    where no name matches a property tier. *)
Theorem reports_bounded_by_names (m : Model) (n : node) (objectName : jsval)
    (names : list jsval) :
  (length (checkPropertyAccess m n objectName (Some names))
   ≤ Nat.max 1 (length names))%nat ∧
  (globallyRestrictedObjects m !! objectName = None →
   (length (checkPropertyAccess m n objectName (Some names)) ≤ length names)%nat).
Proof.
  rewrite checkPropertyAccess_tiers.
  assert (∀ mapName,
            (length (matches mapName names) ≤ length names)%nat) as Hlen
    by (intros; apply length_matches).
  unfold scoped_matches.
  destruct (restrictedProperties m !! objectName) as [inner|].
  - pose proof (Hlen inner) as Hi.
    destruct (matches inner names) as [|f fs] eqn:Hm.
    + pose proof (Hlen (globallyRestrictedProperties m)) as Hg.
      destruct (matches (globallyRestrictedProperties m) names) eqn:Hp.
      * destruct (globallyRestrictedObjects m !! objectName); simpl;
          split; try lia; done.
      * rewrite length_map. split; lia.
    + rewrite length_map. split; lia.
  - pose proof (Hlen (globallyRestrictedProperties m)) as Hg.
    destruct (matches (globallyRestrictedProperties m) names) eqn:Hp.
    + destruct (globallyRestrictedObjects m !! objectName); simpl;
        split; try lia; done.
    + rewrite length_map. split; lia.
Qed.

(** ** Edges of the callbacks *)

(** Without any property name only the global-object tier can fire, and
    [propertyName[0]] is [undefined] then. So a pattern without property
    names, as in [const {} = o;], is still reported when [o] is restricted
    as a whole, and is not reported otherwise. *)
Theorem empty_pattern_on_restricted_object (entries : list RestrictedCall)
    (o : string) :
  let object_report (n : node) (objectName : jsval) (found : Restricted) :=
    {| report_node := n;
       messageId := restrictedObjectProperty;
       data_objectName := Some objectName;
       data_propertyName := JUndefined;
       data_message := message_suffix (restricted_message found) |} in
  (∀ m n objectName,
     checkPropertyAccess m n objectName (Some [])
     = match globallyRestrictedObjects m !! objectName with
       | Some found => [object_report n objectName found]
       | None => []
       end) ∧
  ∃ m, Build entries = Some m ∧
       visit entries (VariableDeclarator (ObjectPattern []) (Some (Identifier o)))
       = Some match globallyRestrictedObjects m !! JString o with
              | Some found => [object_report (ObjectPattern []) (JString o) found]
              | None => []
              end.
Proof.
  intros object_report.
  assert (∀ m n objectName,
            checkPropertyAccess m n objectName (Some [])
            = match globallyRestrictedObjects m !! objectName with
              | Some found => [object_report n objectName found]
              | None => []
              end) as Hcall.
  { intros m n objectName. rewrite checkPropertyAccess_tiers.
    unfold scoped_matches. by destruct (restrictedProperties m !! objectName). }
  split; [exact Hcall|].
  exists (foldl add_call empty_model entries). split; [apply Build_foldl|].
  unfold visit. destruct entries as [|e entries]; [done|].
  rewrite create_cons.
  cbn [dispatch listeners onVariableDeclarator call visitVariableDeclarator
       getAllProperties flat_map].
  by rewrite Hcall.
Qed.

(** The destructuring callbacks report only for an object pattern fed by a
    bare identifier: with any other source or any other target, and for a
    declarator without initializer, nothing is reported under any
    configuration, a global property restriction included. *)
Theorem destructuring_needs_identifier_and_pattern
    (entries : list RestrictedCall) (lhs rhs : node) :
  (∀ s, rhs ≠ Identifier s) ∨ (∀ properties, lhs ≠ ObjectPattern properties) →
  visit entries (VariableDeclarator lhs (Some rhs)) = Some [] ∧
  visit entries (VariableDeclarator lhs None) = Some [] ∧
  visit entries (AssignmentExpression lhs rhs) = Some [] ∧
  visit entries (AssignmentPattern lhs rhs) = Some [].
Proof.
  intros Hshape. unfold visit.
  destruct entries as [|e entries]; [done|]. rewrite create_cons.
  cbn [dispatch listeners onVariableDeclarator onAssignmentExpression
       onAssignmentPattern call visitVariableDeclarator
       checkDestructuringAssignment].
  destruct Hshape as [Hrhs|Hlhs].
  - destruct rhs; try done. exfalso. by eapply Hrhs.
  - destruct lhs; try (exfalso; by eapply Hlhs); by destruct rhs.
Qed.

Lemma destructuring_needs_identifier_and_pattern_witness :
  let entries := [{| object := None; property := Some "bar"; message := None |}] in
  let lhs := ObjectPattern [Property (Identifier "bar") (Identifier "bar") false true] in
  ((∀ s, ThisExpression ≠ Identifier s) ∨
   (∀ properties, lhs ≠ ObjectPattern properties)) ∧
  visit entries (VariableDeclarator lhs (Some ThisExpression)) = Some [] ∧
  visit entries (VariableDeclarator lhs None) = Some [] ∧
  visit entries (AssignmentExpression lhs ThisExpression) = Some [] ∧
  visit entries (AssignmentPattern lhs ThisExpression) = Some [].
Proof.
  intros entries lhs.
  assert ((∀ s, ThisExpression ≠ Identifier s) ∨
          (∀ properties, lhs ≠ ObjectPattern properties)) as Hshape
    by (left; discriminate).
  split; [exact Hshape|].
  exact (destructuring_needs_identifier_and_pattern entries lhs ThisExpression Hshape).
Defined.

(** ** The tables after the loop *)

(** Looking up what was configured: the slot of an entry holds its message
    as soon as no later entry has the same object and property. *)
Theorem Build_then_lookup (l1 : list RestrictedCall) (e : RestrictedCall)
    (l3 : list RestrictedCall) :
  (∀ e', e' ∈ l3 → slot e' ≠ slot e) →
  ∃ m, Build (l1 ++ e :: l3) = Some m ∧
       stored m (object e) (property e)
       = Some {| restricted_message := message e |}.
Proof.
  intros Hl3. exists (foldl add_call empty_model (l1 ++ e :: l3)).
  split; [apply Build_foldl|]. by apply stored_foldl_last.
Qed.

Lemma Build_then_lookup_witness :
  let l1 := [{| object := None; property := Some "a"; message := Some "old" |}] in
  let e := {| object := None; property := Some "a"; message := Some "new" |} in
  let l3 := [{| object := Some "foo"; property := Some "a"; message := None |}] in
  (∀ e', e' ∈ l3 → slot e' ≠ slot e) ∧
  ∃ m, Build (l1 ++ e :: l3) = Some m ∧
       stored m (object e) (property e)
       = Some {| restricted_message := message e |}.
Proof.
  intros l1 e l3.
  assert (∀ e', e' ∈ l3 → slot e' ≠ slot e) as Hl3.
  { intros e' He'. unfold l3 in He'. list_cases. discriminate. }
  split; [exact Hl3|]. exact (Build_then_lookup l1 e l3 Hl3).
Defined.

Lemma to_js_inj o1 o2 : to_js o1 = to_js o2 → o1 = o2.
Proof. destruct o1, o2; simpl; congruence. Qed.

(** A slot of the tables is filled exactly when some configured entry has
    that object and property. *)
Theorem slot_filled_iff_configured (entries : list RestrictedCall) :
  ∃ m, Build entries = Some m ∧
       ∀ o p, is_Some (stored m o p) ↔
              ∃ e, e ∈ entries ∧ object e = o ∧ property e = p.
Proof.
  exists (foldl add_call empty_model entries). split; [apply Build_foldl|].
  intros o p. split.
  - intros [r Hr]. unfold stored in Hr.
    destruct o as [o|], p as [p|].
    + destruct (restrictedProperties _ !! JString o) as [inner|] eqn:Hk; [|done].
      destruct (prov_scoped _ _ (provenance_foldl entries) _ _ _ _ Hk Hr)
        as (e & o' & q & He & Ho & Hq & [= <-] & [= <-] & _).
      by exists e.
    + destruct (prov_objects _ _ (provenance_foldl entries) _ _ Hr)
        as (e & o' & He & Ho & Hq & [= <-] & _).
      by exists e.
    + destruct (prov_properties _ _ (provenance_foldl entries) _ _ Hr)
        as (e & He & Ho & Hq & _).
      exists e. by apply (to_js_inj (Some p)) in Hq.
    + destruct (prov_properties _ _ (provenance_foldl entries) _ _ Hr)
        as (e & He & Ho & Hq & _).
      exists e. by apply (to_js_inj None) in Hq.
  - intros (e & He & <- & <-). by apply stored_foldl_is_Some.
Qed.

Lemma inner_tables_nonempty entries k inner :
  restrictedProperties (foldl add_call empty_model entries) !! k = Some inner →
  inner ≠ ∅.
Proof.
  revert k inner. induction entries as [|e entries IH] using rev_ind;
    intros k inner; [simpl; by rewrite lookup_empty|].
  rewrite foldl_snoc. unfold add_call at 1.
  destruct (object e) as [o|], (property e) as [p|]; simpl; try apply IH.
  intros [[<- <-]|[_ Hk]]%lookup_insert_Some; [|by eapply IH].
  apply insert_non_empty.
Qed.

(** The shape of the tables: the object tables are keyed by strings, each
    per-object table is non-empty and keyed by strings, and [null] is no
    key of the global-property table, so that an unknown property name is
    never found in a property table. *)
Theorem table_keys (entries : list RestrictedCall) :
  ∃ m, Build entries = Some m ∧
       (∀ k inner, restrictedProperties m !! k = Some inner →
                   (∃ o, k = JString o) ∧ inner ≠ ∅ ∧
                   ∀ x, is_Some (inner !! x) → ∃ p, x = JString p) ∧
       (∀ k, is_Some (globallyRestrictedObjects m !! k) → ∃ o, k = JString o) ∧
       (∀ x, is_Some (globallyRestrictedProperties m !! x) → x ≠ JNull) ∧
       (∀ objectName, fun_ (globallyRestrictedProperties m) [JNull] = None ∧
                      scoped_matches m objectName [JNull] = []).
Proof.
  exists (foldl add_call empty_model entries). split; [apply Build_foldl|].
  pose proof (provenance_foldl entries) as [Hs Ho Hp].
  split; [|split; [|split]].
  - intros k inner Hk. split; [|split].
    + destruct (map_choose inner) as (x & r & Hx);
        [by eapply inner_tables_nonempty|].
      destruct (Hs _ _ _ _ Hk Hx) as (e & o & p & _ & _ & _ & -> & _). eauto.
    + by eapply inner_tables_nonempty.
    + intros x [r Hx].
      destruct (Hs _ _ _ _ Hk Hx) as (e & o & p & _ & _ & _ & _ & -> & _). eauto.
  - intros k [r Hk]. destruct (Ho _ _ Hk) as (e & o & _ & _ & _ & -> & _). eauto.
  - intros x [r Hx]. destruct (Hp _ _ Hx) as (e & _ & _ & -> & _).
    by destruct (property e).
  - intros objectName. rewrite fun_matches.
    destruct (computed_access_matches_no_property entries objectName) as [H1 H2].
    cbn zeta in H1, H2. by rewrite H1, H2.
Qed.

(** ** The order of the entries *)

Lemma foldl_add_call_perm (l l' : list RestrictedCall) :
  l ≡ₚ l' → NoDup (slot <$> l) →
  ∀ m, foldl add_call m l = foldl add_call m l'.
Proof.
  induction 1 as [|x l l' Hperm IH|x y l|l l' l'' Hp1 IH1 Hp2 IH2];
    intros Hnd m.
  - done.
  - simpl. apply IH. by apply NoDup_cons in Hnd as [_ ?].
  - simpl. f_equal. apply add_call_commute.
    rewrite !fmap_cons in Hnd. apply NoDup_cons in Hnd as [Hy _].
    intros Heq. apply Hy. unfold slot at 1. rewrite Heq. left.
  - rewrite IH1 by done. apply IH2. by rewrite <- Hp1.
Qed.

(** Where no two entries have the same object and property, their order
    does not matter: every rearrangement builds the same tables, is
    accepted alike and gives the same reports on every program. *)
Theorem entry_order_irrelevant (entries entries' : list RestrictedCall) :
  NoDup (slot <$> entries) → entries ≡ₚ entries' →
  Build entries = Build entries' ∧
  ∀ program, lint entries program = lint entries' program.
Proof.
  intros Hnd Hperm.
  assert (foldl add_call empty_model entries
          = foldl add_call empty_model entries') as Heq
    by (by apply foldl_add_call_perm).
  split; [by rewrite !Build_foldl, Heq|].
  intros program. unfold lint.
  destruct entries as [|e entries].
  - by apply Permutation_nil_l in Hperm as ->.
  - destruct entries' as [|e' entries'];
      [by apply Permutation_nil_r in Hperm|].
    by rewrite !create_cons, Heq.
Qed.

Lemma entry_order_irrelevant_witness :
  let a := {| object := None; property := Some "a"; message := Some "no a" |} in
  let b := {| object := Some "foo"; property := None; message := None |} in
  let c := {| object := Some "foo"; property := Some "a"; message := None |} in
  (NoDup (slot <$> [a; b; c]) ∧ [a; b; c] ≡ₚ [c; a; b]) ∧
  Build [a; b; c] = Build [c; a; b] ∧
  ∀ program, lint [a; b; c] program = lint [c; a; b] program.
Proof.
  intros a b c.
  assert (NoDup (slot <$> [a; b; c])) as Hnd.
  { apply (bool_decide_unpack _). vm_compute. exact I. }
  assert ([a; b; c] ≡ₚ [c; a; b]) as Hperm.
  { change [c; a; b] with ([c] ++ [a; b]).
    rewrite (Permutation_app_comm [c] [a; b]). done. }
  split; [done|].
  exact (entry_order_irrelevant [a; b; c] [c; a; b] Hnd Hperm).
Defined.

(** ** An empty message *)

Lemma message_suffix_drop_empty msg :
  message_suffix (drop_empty msg) = message_suffix msg.
Proof. by destruct msg as [[]|]. Qed.

Lemma drop_empty_model_empty : drop_empty_model empty_model = empty_model.
Proof. unfold drop_empty_model, empty_model. simpl. by rewrite !fmap_empty. Qed.

Lemma add_call_drop_empty m e :
  add_call (drop_empty_model m) (drop_empty_message e)
  = drop_empty_model (add_call m e).
Proof.
  unfold add_call, drop_empty_model.
  destruct (object e) as [o|] eqn:Ho, (property e) as [p|] eqn:Hp; simpl;
    rewrite ?Ho, ?Hp; simpl; f_equal; rewrite ?fmap_insert; try done.
  f_equal. rewrite lookup_fmap.
  destruct (restrictedProperties m !! JString o); simpl; [done|].
  by rewrite fmap_empty.
Qed.

Lemma foldl_add_call_drop_empty entries m :
  foldl add_call (drop_empty_model m) (drop_empty_message <$> entries)
  = drop_empty_model (foldl add_call m entries).
Proof.
  revert m. induction entries as [|e entries IH]; intros m; simpl; [done|].
  by rewrite add_call_drop_empty, IH.
Qed.

Lemma matches_drop_empty (mapName : gmap jsval Restricted) names :
  matches (drop_empty_stored <$> mapName) names
  = drop_empty_matched <$> matches mapName names.
Proof.
  unfold matches. induction names as [|x names IH]; [done|].
  cbn [omap list_omap]. rewrite lookup_fmap.
  destruct (mapName !! x) as [r|]; simpl; [|exact IH].
  f_equal. exact IH.
Qed.

Lemma scoped_matches_drop_empty m objectName names :
  scoped_matches (drop_empty_model m) objectName names
  = drop_empty_matched <$> scoped_matches m objectName names.
Proof.
  unfold scoped_matches. cbn [drop_empty_model restrictedProperties].
  rewrite lookup_fmap.
  destruct (restrictedProperties m !! objectName) as [inner|]; simpl; [|done].
  apply matches_drop_empty.
Qed.

Lemma checkPropertyAccess_drop_empty m n objectName propertyName :
  checkPropertyAccess (drop_empty_model m) n objectName propertyName
  = checkPropertyAccess m n objectName propertyName.
Proof.
  destruct propertyName as [names|]; [|done].
  rewrite !checkPropertyAccess_tiers, scoped_matches_drop_empty.
  cbn [drop_empty_model globallyRestrictedObjects globallyRestrictedProperties].
  rewrite lookup_fmap, matches_drop_empty.
  assert (∀ l, map (report_scoped n objectName) (drop_empty_matched <$> l)
               = map (report_scoped n objectName) l) as Hscoped.
  { intros l. rewrite <- list_fmap_compose. apply list_fmap_ext.
    intros _ f _. unfold report_scoped. simpl.
    by rewrite message_suffix_drop_empty. }
  assert (∀ l, map (report_property n) (drop_empty_matched <$> l)
               = map (report_property n) l) as Hproperty.
  { intros l. rewrite <- list_fmap_compose. apply list_fmap_ext.
    intros _ f _. unfold report_property. simpl.
    by rewrite message_suffix_drop_empty. }
  destruct (scoped_matches m objectName names) as [|f fs];
    [|exact (Hscoped (f :: fs))].
  destruct (matches (globallyRestrictedProperties m) names) as [|g gs];
    [|exact (Hproperty (g :: gs))].
  destruct (globallyRestrictedObjects m !! objectName) as [found|]; [|done].
  simpl. unfold report_object. simpl. by rewrite message_suffix_drop_empty.
Qed.

Lemma dispatch_drop_empty m n :
  dispatch (listeners (drop_empty_model m)) n = dispatch (listeners m) n.
Proof.
  destruct n; try done;
    cbn [dispatch listeners onMemberExpression onVariableDeclarator
         onAssignmentExpression onAssignmentPattern call visitMemberExpression
         visitVariableDeclarator checkDestructuringAssignment];
    repeat match goal with
           | |- context [match ?x with _ => _ end] =>
               is_var x; destruct x; try done
           end;
    apply checkPropertyAccess_drop_empty.
Qed.

Lemma flat_map_ext_Forall {A B : Type} (f g : A → list B) (l : list A) :
  Forall (λ x, f x = g x) l → flat_map f l = flat_map g l.
Proof. induction 1 as [|x l Hx _ IH]; simpl; [done|]. by rewrite Hx, IH. Qed.

(** The traversal only depends on what the callbacks report. *)
Lemma traverse_ext (l1 l2 : RuleListener) :
  (∀ n, dispatch l1 n = dispatch l2 n) →
  ∀ n, traverse l1 n = traverse l2 n.
Proof.
  intros Hd n. induction n using node_tree_ind; cbn [traverse];
    rewrite Hd; f_equal;
    rewrite ?IHn, ?IHn1, ?IHn2; try done;
    try (f_equal; by apply flat_map_ext_Forall);
    try (by apply flat_map_ext_Forall).
  f_equal. destruct init as [e|]; [|done].
  match goal with Hinit : ∀ e, _ = Some e → _ |- _ => by apply Hinit end.
Qed.

(** An entry with the empty message behaves as one without message: the
    reports, on every node and over every program, are the same. *)
Theorem empty_message_is_no_message (entries : list RestrictedCall) :
  (∀ n, visit (drop_empty_message <$> entries) n = visit entries n) ∧
  (∀ program,
     lint (drop_empty_message <$> entries) program = lint entries program).
Proof.
  unfold visit, lint. destruct entries as [|e entries]; [done|].
  assert (foldl add_call empty_model (drop_empty_message <$> (e :: entries))
          = drop_empty_model (foldl add_call empty_model (e :: entries))) as Heq.
  { rewrite <- foldl_add_call_drop_empty. by rewrite drop_empty_model_empty. }
  rewrite fmap_cons in *. rewrite !create_cons, Heq.
  split.
  - intros n. f_equal. apply dispatch_drop_empty.
  - intros program. f_equal. apply traverse_ext. apply dispatch_drop_empty.
Qed.

(** ** The revision with [getMatchingProperties] *)

Lemma getMatchingProperties_loop (restricted : gmap jsval Restricted)
    (propertyNames : list jsval) (acc : list Matched) :
  foldl (λ matchedProperties property,
           if decide (¬ is_Some (restricted !! property)) then matchedProperties
           else
             matchedProperties ++
             [{| name := property;
                 props_message :=
                   match restricted !! property with
                   | Some r => restricted_message r
                   | None => None
                   end |}]) acc propertyNames
  = acc ++ matches restricted propertyNames.
Proof.
  revert acc. induction propertyNames as [|x xs IH]; intros acc; simpl.
  - by rewrite app_nil_r.
  - rewrite IH. unfold matches at 2. cbn [omap list_omap].
    destruct (restricted !! x) as [r|]; simpl.
    + by rewrite <- app_assoc.
    + done.
Qed.

(** The two texts of the matching procedure agree: the helper returns
    [false] where [fun] returns [undefined] and the same array otherwise,
    every call makes the same reports, and so does the member-access
    callback under every configuration. *)
Theorem getMatchingProperties_revision_agrees :
  (∀ restricted propertyNames,
     Revision2.getMatchingProperties restricted propertyNames
     = fun_ restricted propertyNames) ∧
  (∀ m n objectName propertyName,
     Revision2.checkPropertyAccess m n objectName propertyName
     = checkPropertyAccess m n objectName propertyName) ∧
  (∀ options parent object property computed,
     Revision2.visit options parent (MemberExpression object property computed)
     = visit options (MemberExpression object property computed)).
Proof.
  assert (∀ restricted propertyNames,
            Revision2.getMatchingProperties restricted propertyNames
            = fun_ restricted propertyNames) as Hfun.
  { intros restricted propertyNames. rewrite fun_matches.
    unfold Revision2.getMatchingProperties.
    rewrite getMatchingProperties_loop. simpl.
    by destruct (matches restricted propertyNames). }
  assert (∀ m n objectName propertyName,
            Revision2.checkPropertyAccess m n objectName propertyName
            = checkPropertyAccess m n objectName propertyName) as Hcheck.
  { intros m n objectName [names|]; [|done].
    unfold Revision2.checkPropertyAccess, checkPropertyAccess.
    rewrite !Hfun.
    destruct (restrictedProperties m !! objectName) as [inner|];
      [rewrite Hfun; destruct (fun_ inner names)|]; try done;
      by destruct (fun_ (globallyRestrictedProperties m) names). }
  split; [exact Hfun|]. split; [exact Hcheck|].
  intros options parent object property computed.
  unfold Revision2.visit, Revision2.create, visit, create.
  case_decide; [done|].
  rewrite Build_foldl.
  cbn [Revision2.onMemberExpression Revision2.visitMemberExpression dispatch
       listeners onMemberExpression call visitMemberExpression].
  f_equal. apply Hcheck.
Qed.

(** The [ObjectPattern] callback of that revision never reports, so that
    destructuring goes unreported there, and it throws exactly below a
    declarator without initializer (as in [for (const { a } of xs)]),
    where it reads [node.parent.init.name]. *)
Theorem object_pattern_callback_reports_nothing
    (options : list RestrictedCall) (parent : node) (properties : list node) :
  options ≠ [] →
  (Revision2.visit options parent (ObjectPattern properties) = None ↔
   ∃ id, parent = VariableDeclarator id None) ∧
  (∀ reports,
     Revision2.visit options parent (ObjectPattern properties) = Some reports →
     reports = []).
Proof.
  intros Hne. unfold Revision2.visit, Revision2.create.
  rewrite decide_False by (by destruct options).
  rewrite Build_foldl. simpl. unfold Revision2.visitObjectPattern.
  split.
  - split.
    + destruct parent; simpl; try done.
      * by destruct parent2.
      * by destruct parent2.
      * destruct init; [done|]. eauto.
    + by intros [id ->].
  - intros reports.
    destruct (Revision2.pattern_objectName parent); [|done]. congruence.
Qed.

Lemma object_pattern_callback_reports_nothing_witness :
  let options := [{| object := Some "foo"; property := Some "a"; message := None |}] in
  let parent := VariableDeclarator pattern_a None in
  options ≠ [] ∧
  (Revision2.visit options parent pattern_a = None ↔
   ∃ id, parent = VariableDeclarator id None) ∧
  (∀ reports,
     Revision2.visit options parent pattern_a = Some reports → reports = []).
Proof.
  intros options parent.
  assert (options ≠ []) as Hne by discriminate.
  split; [exact Hne|].
  exact (object_pattern_callback_reports_nothing options parent
           [Property (Identifier "a") (Identifier "a") false true] Hne).
Defined.

(** ** The revision that checks one property name per call *)

(** There the null guard works: a member access without statically known
    property name is never reported, whatever the tables hold. *)
Theorem per_property_computed_access_silent (m : Model)
    (object property : node) (computed : bool) :
  getStaticPropertyName (MemberExpression object property computed) = JNull →
  PerProperty.visitMemberExpression m (MemberExpression object property computed)
  = Some [].
Proof.
  intros Hnull. unfold PerProperty.visitMemberExpression. by rewrite Hnull.
Qed.

Lemma per_property_computed_access_silent_witness :
  let m := add_call empty_model
             {| object := Some "foo"; property := None; message := None |} in
  getStaticPropertyName
    (MemberExpression (Identifier "foo") (Identifier "bar") true) = JNull ∧
  PerProperty.visitMemberExpression m
    (MemberExpression (Identifier "foo") (Identifier "bar") true)
  = Some [].
Proof.
  intros m. split; [reflexivity|].
  apply (per_property_computed_access_silent m (Identifier "foo")
           (Identifier "bar") true).
  reflexivity.
Defined.

(** With a single name a call never throws and reports at most once, so
    the destructuring callback never throws and reports at most once per
    property of the pattern. *)
Theorem per_property_single_name_safe (m : Model) (n : node) :
  (∀ objectName v,
     ∃ reports,
       PerProperty.checkPropertyAccess m n objectName (PerProperty.Scalar v)
       = Some reports ∧ (length reports ≤ 1)%nat) ∧
  (∀ objectName properties,
     ∃ reports,
       PerProperty.forEach_property m n objectName properties = Some reports ∧
       (length reports ≤ length properties)%nat) ∧
  is_Some (PerProperty.checkDestructuringAssignment m n).
Proof.
  assert (∀ n objectName v,
            ∃ reports,
              PerProperty.checkPropertyAccess m n objectName (PerProperty.Scalar v)
              = Some reports ∧ (length reports ≤ 1)%nat) as Hone.
  { intros n' objectName v. unfold PerProperty.checkPropertyAccess.
    destruct v; [|by eexists; split; [done|simpl; lia]|];
      (destruct (restrictedProperties m !! objectName) as [inner|];
       [destruct (inner !! _)|destruct (globallyRestrictedObjects m !! objectName)];
       simpl; try (by eexists; split; [done|simpl; lia]);
       destruct (globallyRestrictedProperties m !! _); simpl;
       by eexists; split; [done|simpl; lia]). }
  assert (∀ n objectName properties,
            ∃ reports,
              PerProperty.forEach_property m n objectName properties
              = Some reports ∧ (length reports ≤ length properties)%nat) as Hall.
  { intros n' objectName properties.
    induction properties as [|property rest (more & Hmore & Hlen)];
      cbn [PerProperty.forEach_property].
    - by exists [].
    - destruct (Hone n' objectName (getStaticPropertyName property))
        as (reports & -> & Hle).
      rewrite Hmore. eexists. split; [done|].
      rewrite length_app, length_cons. lia. }
  split; [apply Hone|]. split; [apply Hall|].
  unfold PerProperty.checkDestructuringAssignment.
  destruct n; try (by eexists);
    (match goal with |- context [match ?x with _ => _ end] =>
       is_var x; destruct x; try (by eexists) end);
    (match goal with |- context [match ?x with _ => _ end] =>
       is_var x; destruct x; try (by eexists) end);
    match goal with
    | |- is_Some (PerProperty.forEach_property m ?lhs ?objectName ?properties) =>
        by destruct (Hall lhs objectName properties) as (reports & -> & _)
    end.
Qed.

(** With an array of names a call throws exactly when the object has no
    table of its own and is restricted as a whole: the loop then iterates
    over the stored entry. And once the object has a table of its own,
    only [restrictedObjectProperty] reports are made, whatever the
    global-property table holds. *)
Theorem per_property_array_throws_iff (m : Model) (n : node)
    (objectName : jsval) (names : list jsval) :
  (PerProperty.checkPropertyAccess m n objectName (PerProperty.Array names) = None
   ↔ restrictedProperties m !! objectName = None ∧
     is_Some (globallyRestrictedObjects m !! objectName)) ∧
  (is_Some (restrictedProperties m !! objectName) →
   ∃ reports,
     PerProperty.checkPropertyAccess m n objectName (PerProperty.Array names)
     = Some reports ∧
     Forall (λ r, messageId r = restrictedObjectProperty) reports).
Proof.
  unfold PerProperty.checkPropertyAccess.
  destruct (restrictedProperties m !! objectName) as [inner|]; simpl.
  - split.
    + split; [done|]. by intros [? _].
    + intros _. eexists. split; [done|].
      apply Forall_forall. by intros r (f & -> & _)%list_elem_of_fmap.
  - split; [|by intros [? ?]].
    destruct (globallyRestrictedObjects m !! objectName); simpl.
    + split; [eauto|done].
    + split; [done|]. by intros [_ [? ?]].
Qed.

Lemma matches_singleton (mapName : gmap jsval Restricted) (v : jsval) :
  matches mapName [v]
  = match mapName !! v with
    | Some r => [{| name := v; props_message := restricted_message r |}]
    | None => []
    end.
Proof. unfold matches. cbn [omap list_omap]. by destruct (mapName !! v). Qed.

(** On a known single name the two revisions make the same reports
    whenever the object is not restricted as a whole. *)
Theorem per_property_agrees_without_global_object (m : Model) (n : node)
    (objectName v : jsval) :
  v ≠ JNull → globallyRestrictedObjects m !! objectName = None →
  PerProperty.checkPropertyAccess m n objectName (PerProperty.Scalar v)
  = Some (checkPropertyAccess m n objectName (Some [v])).
Proof.
  intros Hv Hgo. rewrite checkPropertyAccess_tiers.
  unfold scoped_matches, PerProperty.checkPropertyAccess.
  rewrite Hgo, !matches_singleton.
  destruct v as [| |s]; [|done|];
    (destruct (restrictedProperties m !! objectName) as [inner|]; simpl;
     [destruct (inner !! _); simpl; [done|]|];
     by destruct (globallyRestrictedProperties m !! _)).
Qed.

Lemma per_property_agrees_without_global_object_witness :
  let m := add_call empty_model
             {| object := None; property := Some "a"; message := Some "no a" |} in
  let n := MemberExpression (Identifier "foo") (Identifier "a") false in
  (JString "a" ≠ JNull ∧ globallyRestrictedObjects m !! JString "foo" = None) ∧
  PerProperty.checkPropertyAccess m n (JString "foo") (PerProperty.Scalar (JString "a"))
  = Some (checkPropertyAccess m n (JString "foo") (Some [JString "a"])).
Proof.
  intros m n.
  assert (JString "a" ≠ JNull) as Hv by discriminate.
  assert (globallyRestrictedObjects m !! JString "foo" = None) as Hgo
    by reflexivity.
  split; [done|].
  exact (per_property_agrees_without_global_object m n (JString "foo")
           (JString "a") Hv Hgo).
Defined.

(** Where the object is restricted as a whole the revisions differ. With
    one name per call, an object without a table of its own is reported as
    an object before any global property restriction is looked at, and an
    object with a table of its own that lacks the name is not reported as
    an object at all, where the array revision does report it. *)
Theorem per_property_global_object_precedence (m : Model) (n : node)
    (objectName v : jsval) (found : Restricted) :
  v ≠ JNull → globallyRestrictedObjects m !! objectName = Some found →
  let object_report :=
    {| report_node := n;
       messageId := restrictedObjectProperty;
       data_objectName := Some objectName;
       data_propertyName := v;
       data_message := message_suffix (restricted_message found) |} in
  (restrictedProperties m !! objectName = None →
   PerProperty.checkPropertyAccess m n objectName (PerProperty.Scalar v)
   = Some [object_report]) ∧
  (∀ inner, restrictedProperties m !! objectName = Some inner →
            inner !! v = None → globallyRestrictedProperties m !! v = None →
            PerProperty.checkPropertyAccess m n objectName (PerProperty.Scalar v)
            = Some [] ∧
            checkPropertyAccess m n objectName (Some [v]) = [object_report]).
Proof.
  intros Hv Hgo object_report. split.
  - intros Hrp. unfold PerProperty.checkPropertyAccess.
    rewrite Hrp, Hgo. by destruct v.
  - intros inner Hrp Hinner Hgp. split.
    + unfold PerProperty.checkPropertyAccess.
      rewrite Hrp, Hinner, Hgp. by destruct v.
    + rewrite checkPropertyAccess_tiers. unfold scoped_matches.
      by rewrite Hrp, !matches_singleton, Hinner, Hgp, Hgo.
Qed.

Lemma per_property_global_object_precedence_witness :
  let m := foldl add_call empty_model
             [{| object := Some "foo"; property := None; message := Some "no foo" |};
              {| object := None; property := Some "a"; message := None |}] in
  let n := MemberExpression (Identifier "foo") (Identifier "a") false in
  let found := {| restricted_message := Some "no foo" |} in
  let object_report :=
    {| report_node := n;
       messageId := restrictedObjectProperty;
       data_objectName := Some (JString "foo");
       data_propertyName := JString "a";
       data_message := message_suffix (restricted_message found) |} in
  (JString "a" ≠ JNull ∧
   globallyRestrictedObjects m !! JString "foo" = Some found) ∧
  (restrictedProperties m !! JString "foo" = None →
   PerProperty.checkPropertyAccess m n (JString "foo") (PerProperty.Scalar (JString "a"))
   = Some [object_report]) ∧
  (∀ inner, restrictedProperties m !! JString "foo" = Some inner →
            inner !! JString "a" = None →
            globallyRestrictedProperties m !! JString "a" = None →
            PerProperty.checkPropertyAccess m n (JString "foo")
              (PerProperty.Scalar (JString "a")) = Some [] ∧
            checkPropertyAccess m n (JString "foo") (Some [JString "a"])
            = [object_report]).
Proof.
  intros m n found object_report.
  assert (JString "a" ≠ JNull) as Hv by discriminate.
  assert (globallyRestrictedObjects m !! JString "foo" = Some found) as Hgo
    by reflexivity.
  split; [done|].
  exact (per_property_global_object_precedence m n (JString "foo") (JString "a")
           found Hv Hgo).
Defined.

(** [foo.a] with [foo] restricted as a whole and [foo.b] restricted: one
    name per call reports nothing, the array revision reports the object. *)
Example per_property_ignores_global_object :
  let m := foldl add_call empty_model
             [{| object := Some "foo"; property := None; message := None |};
              {| object := Some "foo"; property := Some "b"; message := None |}] in
  let n := MemberExpression (Identifier "foo") (Identifier "a") false in
  PerProperty.visitMemberExpression m n = Some [] ∧
  visitMemberExpression m n
  = [{| report_node := n;
        messageId := restrictedObjectProperty;
        data_objectName := Some (JString "foo");
        data_propertyName := JString "a";
        data_message := "" |}].
Proof. split; vm_compute; reflexivity. Qed.
